(** * mos-chinadns: the upstream exchange layer ([upstream.go])

    A shallow embedding of the UDP connection pool, the UDP and TCP
    exchangers and the upstream factory, followed by the properties of
    the specification that were checked against them.

    Conventions of the embedding.
    - A [*net.UDPConn] is [option conn]: [None] is the nil pointer,
      [Some k] the socket number [k].
    - [time.Time] and [time.Duration] are integers counting nanoseconds;
      the zero [time.Time] is [0].  Every call of [time.Now] (and so of
      [time.Since]) reads the next value of the clock of the world.
    - A run-time panic (nil pointer dereference, index out of range)
      ends the run: the outcome [Panic] carries no state.
    - The mutex of the pool is not modelled: the operations are run one
      after the other, which is what the lock enforces. *)

From Stdlib Require Import ZArith List Bool Lia Sorted.
From Stdlib.Strings Require Import String Byte.
Import ListNotations.
Open Scope Z_scope.

(** ** Time *)

Definition Time := Z.
Definition Duration := Z.

Definition Second : Duration := 1000000000.
Definition maxDuration : Duration := 9223372036854775807.
Definition minDuration : Duration := -9223372036854775808.

(** [t.Sub(u)]: the difference, saturated to the range of a Duration. *)
Definition Sub (t u : Time) : Duration :=
  let d := t - u in
  if d >? maxDuration then maxDuration
  else if d <? minDuration then minDuration
  else d.

(** ** The pool and the world it lives in *)

Definition conn := nat.

Record udpConnPoolElem := mkElem {
  UDPConn : option conn;
  lastUsed : Time
}.

Record udpConnPool := mkPool {
  maxSize : Z;
  pool : list udpConnPoolElem;
  ttl : Duration;
  lastClean : Time;
  cleannerInterval : Duration
}.

(** Where a call of [Close] stands in the source: inside the pool
    ([runCleanner], [put], [get]) or in an exchanger. *)
Inductive site := InPool | InExchange.

(** What a run leaves behind: sockets closed, sockets handed to [put],
    receive buffers acquired and released. *)
Inductive event :=
| EvClose (s : site) (c : conn)
| EvPut (c : conn)
| EvAcquire (size : Z)
| EvRelease.

(** [ucp] is the pool object behind the pointer [u.cp] ([None]: the
    pointer is nil); [clock n] is the value of the [n]-th reading of
    the clock and [ticks] counts the readings made so far. *)
Record world := mkWorld {
  ucp : option udpConnPool;
  clock : nat -> Time;
  ticks : nat;
  trace : list event
}.

Inductive outcome (A : Type) : Type :=
| Done (a : A) (w : world)
| Panic
| Blocked.
Arguments Done {A} a w.
Arguments Panic {A}.
Arguments Blocked {A}.

Definition M (A : Type) : Type := world -> outcome A.

Definition ret {A} (a : A) : M A := fun w => Done a w.

Definition bind {A B} (m : M A) (k : A -> M B) : M B :=
  fun w =>
    match m w with
    | Done a w' => k a w'
    | Panic => Panic
    | Blocked => Blocked
    end.

Definition panic {A} : M A := fun _ => Panic.
Definition blocked {A} : M A := fun _ => Blocked.

Declare Scope go_scope.
Delimit Scope go_scope with go.
Notation "x <- c1 ;; c2" := (bind c1 (fun x => c2))
  (at level 61, c1 at next level, right associativity) : go_scope.
Notation "c1 ;; c2" := (bind c1 (fun _ => c2))
  (at level 61, right associativity) : go_scope.
Open Scope go_scope.

(** [time.Now()] *)
Definition Now : M Time :=
  fun w => Done (clock w (ticks w))
                (mkWorld (ucp w) (clock w) (S (ticks w)) (trace w)).

(** [time.Since(t)] is [time.Now().Sub(t)] *)
Definition Since (t : Time) : M Duration :=
  now <- Now ;; ret (Sub now t).

(** The world [w] with [evs] added to its trace. *)
Definition logged (w : world) (evs : list event) : world :=
  mkWorld (ucp w) (clock w) (ticks w) (trace w ++ evs).

Definition emit (e : event) : M unit :=
  fun w => Done tt (logged w [e]).

(** [c.Close()] on a [*net.UDPConn]: the method is promoted from the
    embedded struct, so the call takes the address of a field of [*c]
    and a nil [c] panics. *)
Definition Close (s : site) (c : option conn) : M unit :=
  match c with
  | None => panic
  | Some k => emit (EvClose s k)
  end.

(** [p == nil] for the receiver *)
Definition isNil : M bool :=
  fun w => Done (match ucp w with None => true | Some _ => false end) w.

(** Reading a field of [*p]: panics when [p] is nil. *)
Definition deref : M udpConnPool :=
  fun w => match ucp w with None => Panic | Some p => Done p w end.

(** Assigning to fields of [*p]. *)
Definition setPool (l : list udpConnPoolElem) : M unit :=
  fun w =>
    match ucp w with
    | None => Panic
    | Some p =>
        Done tt (mkWorld
                   (Some (mkPool (maxSize p) l (ttl p) (lastClean p)
                            (cleannerInterval p)))
                   (clock w) (ticks w) (trace w))
    end.

Definition setLastClean (t : Time) : M unit :=
  fun w =>
    match ucp w with
    | None => Panic
    | Some p =>
        Done tt (mkWorld
                   (Some (mkPool (maxSize p) (pool p) (ttl p) t
                            (cleannerInterval p)))
                   (clock w) (ticks w) (trace w))
    end.

(** Go's [a && b]: [b] is evaluated only when [a] is true. *)
Definition land (a b : M bool) : M bool :=
  x <- a ;; if x then b else ret false.

Definition len {A} (l : list A) : Z := Z.of_nat (List.length l).

(** [newUDPConnPool]; the capacity hint of [make] has no meaning here. *)
Definition newUDPConnPool (size : Z) (ttl gcInterval : Duration)
  : option udpConnPool :=
  Some (mkPool size [] ttl 0 gcInterval).

(** The loop of the scheduled sweep.  The source filters [p.pool] in
    place ([res := p.pool[:0]]); [res] never gets ahead of the index
    read, so the loop is the filter below. *)
Fixpoint sweepExpired (ttl : Duration) (l : list udpConnPoolElem)
  : M (list udpConnPoolElem) :=
  match l with
  | [] => ret []
  | e :: l' =>
      age <- Since (lastUsed e) ;;
      if age <? ttl then
        res <- sweepExpired ttl l' ;; ret (e :: res)
      else
        Close InPool (UDPConn e) ;; sweepExpired ttl l'
  end.

(** The loop of the sweep of a full pool, from index [i] on. *)
Fixpoint sweepFull (ttl : Duration) (mid : Z) (i : nat)
  (l : list udpConnPoolElem) : M (list udpConnPoolElem) :=
  match l with
  | [] => ret []
  | e :: l' =>
      e1 <- (if Z.of_nat i <? mid then
               Close InPool (UDPConn e) ;; ret (mkElem None (lastUsed e))
             else ret e) ;;
      age <- Since (lastUsed e1) ;;
      if age <? ttl then
        res <- sweepFull ttl mid (S i) l' ;; ret (e1 :: res)
      else
        Close InPool (UDPConn e1) ;; sweepFull ttl mid (S i) l'
  end.

Definition runCleanner : M unit :=
  g <- land isNil (p <- deref ;; ret (len (pool p) =? 0)) ;;
  if g then ret tt else
  p <- deref ;;
  since <- Since (lastClean p) ;;
  (if since >? cleannerInterval p then
     now <- Now ;;
     setLastClean now ;;
     res <- sweepExpired (ttl p) (pool p) ;;
     setPool res
   else ret tt) ;;
  p <- deref ;;
  if len (pool p) >=? maxSize p then
    res <- sweepFull (ttl p) (Z.shiftr (len (pool p)) 1) 0 (pool p) ;;
    setPool res
  else ret tt.

Definition put (c : option conn) : M unit :=
  g <- land isNil (p <- deref ;; ret (maxSize p <=? 0)) ;;
  if g then ret tt else
  runCleanner ;;
  p <- deref ;;
  if len (pool p) >=? maxSize p then
    Close InPool c
  else
    now <- Now ;;
    setPool (pool p ++ [mkElem c now]).

Definition get : M (option conn) :=
  g <- land isNil (p <- deref ;; ret (maxSize p <=? 0)) ;;
  if g then ret None else
  runCleanner ;;
  p <- deref ;;
  if len (pool p) >? 0 then
    match nth_error (pool p) (List.length (pool p) - 1)%nat with
    | None => panic
    | Some e =>
        setPool (firstn (List.length (pool p) - 1)%nat (pool p)) ;;
        age <- Since (lastUsed e) ;;
        if age >? ttl p then
          Close InPool (UDPConn e) ;; ret None
        else ret (UDPConn e)
    end
  else ret None.

(** ** Errors and the network *)

(** An error returned by the [net] package: whether it implements
    [net.Error] and what its [Timeout()] answers. *)
Record ioError := mkIOError {
  isNetError : bool;
  Timeout : bool;
  errno : nat
}.

Inductive error :=
| ErrId                      (* dns.ErrId *)
| ErrShortRead               (* dns.ErrShortRead *)
| ErrIO (e : ioError)
| Errorf (msg : string).     (* fmt.Errorf *)

(** One call of [c.Read(buf)]: the [n] bytes stored in [buf[:n]], or an
    error together with what [ctx.Err() != nil] answers when the error is
    inspected.  The watcher goroutine and its [sync.Once] act on the
    socket's deadline only; what they cause is a [ReadErr]. *)
Inductive readResult :=
| ReadOk (data : list byte)
| ReadErr (err : ioError) (ctxErr : bool).

Record UDPAddr := mkUDPAddr { IP : string; Port : Z }.

Record udpScript := mkUDPScript {
  dialUDP : UDPAddr -> conn + ioError;
  writeErr : option ioError;
  reads : list readResult
}.

Record tcpScript := mkTCPScript {
  dialTCP : string -> conn + ioError;
  tcpWriteErr : option ioError;      (* writeMsgToTCP *)
  tcpRead : list byte + ioError      (* readMsgFromTCP *)
}.

(** ** Upstreams *)

Record upstreamTCP := mkUpstreamTCP { tcpAddr : string }.

(** [cp] is the pool the value is built with; while exchanges run, the
    object behind [u.cp] is the [ucp] of the world. *)
Record upstreamUDP := mkUpstreamUDP {
  addr : UDPAddr;
  maxUDPSize : Z;
  cp : option udpConnPool
}.

Definition boot (u : upstreamUDP) (clk : nat -> Time) : world :=
  mkWorld (cp u) clk 0 [].

Definition reply := (option (list byte) * option error)%type.

Section Exchange.

(** [utils.GetMsgID] is not part of [upstream.go]; the exchangers only
    compare its results. *)
Variable GetMsgID : list byte -> Z.

Definition exchangeTCP (u : upstreamTCP) (net : tcpScript)
  (qRaw : list byte) : M reply :=
  match dialTCP net (tcpAddr u) with
  | inr e => ret (None, Some (ErrIO e))
  | inl c =>
      r <- match tcpWriteErr net with
           | Some e => ret (None, Some (ErrIO e))
           | None =>
               match tcpRead net with
               | inr e => ret (None, Some (ErrIO e))
               | inl rRaw =>
                   let msgID := GetMsgID qRaw in
                   if negb (GetMsgID rRaw =? msgID) then
                     emit EvRelease ;; ret (None, Some ErrId)
                   else ret (Some rRaw, None)
               end
           end ;;
      Close InExchange (Some c) ;;      (* defer c.Close() *)
      ret r
  end.

Definition ExchangeTCP (u : upstreamTCP) (net : tcpScript)
  (qRaw : list byte) : M (option (list byte) * Duration * option error) :=
  t <- Now ;;
  r <- exchangeTCP u net qRaw ;;
  rtt <- Since t ;;
  ret (fst r, rtt, snd r).

(** The code from the label [read] on; [goto read] is the recursive
    call, on the rest of what the socket delivers.  A socket that
    delivers nothing more leaves the read pending. *)
Fixpoint readLoop (c : conn) (isNewConn : bool) (qRaw : list byte)
  (rs : list readResult) : M reply :=
  match rs with
  | [] => blocked
  | ReadErr err ctxErr :: _ =>
      if isNetError err && Timeout err && ctxErr then
        emit (EvPut c) ;; put (Some c) ;;
        emit EvRelease ;;               (* bufpool.ReleaseMsgBuf *)
        ret (None, Some (ErrIO err))
      else
        Close InExchange (Some c) ;;
        emit EvRelease ;;
        ret (None, Some (ErrIO err))
  | ReadOk rRaw :: rs' =>
      if len rRaw <? 12 then
        Close InExchange (Some c) ;;
        emit EvRelease ;;
        ret (None, Some ErrShortRead)
      else if negb (GetMsgID rRaw =? GetMsgID qRaw) && negb isNewConn then
        readLoop c isNewConn qRaw rs'
      else
        emit (EvPut c) ;; put (Some c) ;;
        ret (Some rRaw, None)
  end.

Definition exchangeUDP (u : upstreamUDP) (net : udpScript)
  (qRaw : list byte) : M reply :=
  got <- get ;;
  match (match got with
         | Some c => inl (c, false)
         | None =>
             match dialUDP net (addr u) with
             | inl c => inl (c, true)
             | inr e => inr e
             end
         end) with
  | inr e => ret (None, Some (ErrIO e))
  | inl (c, isNewConn) =>
      match writeErr net with
      | Some e => Close InExchange (Some c) ;; ret (None, Some (ErrIO e))
      | None =>
          emit (EvAcquire (maxUDPSize u)) ;;   (* bufpool.AcquireMsgBuf *)
          readLoop c isNewConn qRaw (reads net)
      end
  end.

Definition ExchangeUDP (u : upstreamUDP) (net : udpScript)
  (qRaw : list byte) : M (option (list byte) * Duration * option error) :=
  t <- Now ;;
  r <- exchangeUDP u net qRaw ;;
  rtt <- Since t ;;
  ret (fst r, rtt, snd r).

End Exchange.

(** ** The factory *)

Record tlsConfig := mkTLSConfig {
  RootCAs : option nat;
  ClientSessionCache : Z           (* capacity of the LRU session cache *)
}.

(** What [dohclient.NewClient] is called with. *)
Record dohClient := mkDoHClient {
  dohURL : string;
  dohAddr : string;
  dohTLS : tlsConfig;
  dohMaxSize : Z;
  dohTimeout : Duration
}.

Inductive upstream :=
| UpTCP (u : upstreamTCP)
| UpUDP (u : upstreamUDP)
| UpDoH (c : dohClient).

Definition MaxMsgSize : Z := 65535.   (* dns.MaxMsgSize *)

Section Factory.

(** [net.ResolveUDPAddr("udp", _)] and the package constant
    [queryTimeout], both declared outside [upstream.go]. *)
Variable ResolveUDPAddr : string -> UDPAddr + error.
Variable queryTimeout : Duration.

Definition newUpstream (addr prot url : string) (rootCAs : option nat)
  : upstream + error :=
  if (prot =? "tcp")%string then
    inl (UpTCP (mkUpstreamTCP addr))
  else if ((prot =? "udp") || (prot =? ""))%string then
    match ResolveUDPAddr addr with
    | inr err => inr err
    | inl udpAddr =>
        inl (UpUDP (mkUpstreamUDP udpAddr 1480
                      (newUDPConnPool 65535 (Second * 10) (Second * 10))))
    end
  else if (prot =? "doh")%string then
    let tlsConf := mkTLSConfig rootCAs 64 in
    if len (list_byte_of_string url) =? 0 then
      inr (Errorf ("protocol [" ++ prot ++ "] needs URL"))
    else
      inl (UpDoH (mkDoHClient url addr tlsConf MaxMsgSize queryTimeout))
  else
    inr (Errorf ("unsupport protocol: " ++ prot)).

End Factory.

(** ** Runs of pool operations *)

Inductive poolOp :=
| OpGet
| OpPut (c : option conn).

Definition runOp (o : poolOp) : M (option conn) :=
  match o with
  | OpGet => get
  | OpPut c => put c ;; ret None
  end.

(** The worlds reached after each operation of [ops] that completes;
    the run stops at the first panic. *)
Fixpoint runOps (ops : list poolOp) (w : world) : list world :=
  match ops with
  | [] => []
  | o :: ops' =>
      match runOp o w with
      | Done _ w' => w' :: runOps ops' w'
      | _ => []
      end
  end.

(** [len(pool) <= maxSize] *)
Definition poolBounded (w : world) : Prop :=
  match ucp w with
  | Some p => len (pool p) <= maxSize p
  | None => True
  end.

(** Every entry of the pool holds a socket. *)
Definition allLive (l : list udpConnPoolElem) : Prop :=
  Forall (fun e => UDPConn e <> None) l.

Definition poolEvent (e : event) : Prop := exists c, e = EvClose InPool c.

(** [w'] comes after [w]: same clock, and the trace has grown by [evs]. *)
Definition grows (w w' : world) (evs : list event) : Prop :=
  clock w' = clock w /\ trace w' = trace w ++ evs.



(** The connection an exchange works with: the one [get] hands out, or
    else the one dialed. *)
Definition obtained (u : upstreamUDP) (net : udpScript) (w : world)
  : option (conn * bool * world) :=
  match get w with
  | Done (Some c) w1 => Some (c, false, w1)
  | Done None w1 =>
      match dialUDP net (addr u) with
      | inl c => Some (c, true, w1)
      | inr _ => None
      end
  | _ => None
  end.

(** ** Predicates of the statements *)

(** What a completed pool operation does to the world: the parameters
    of the pool stay, the pool is at most [n] long, and the trace grows
    by sockets the pool closed. *)
Definition poolStep (w w' : world) (n : nat) : Prop :=
  exists p p' evs,
    ucp w = Some p /\ ucp w' = Some p' /\
    maxSize p' = maxSize p /\ ttl p' = ttl p /\
    cleannerInterval p' = cleannerInterval p /\
    (List.length (pool p') <= n)%nat /\
    grows w w' evs /\ Forall poolEvent evs.

(** The pool of [w'] is empty and has the parameters of [p]. *)
Definition emptyPoolOf (p : udpConnPool) (w' : world) : Prop :=
  exists p', ucp w' = Some p' /\ pool p' = [] /\ maxSize p' = maxSize p /\
             ttl p' = ttl p /\ cleannerInterval p' = cleannerInterval p.



(** The operation hands no nil connection to [put]. *)
Definition carriesSocket (o : poolOp) : Prop :=
  match o with
  | OpPut None => False
  | _ => True
  end.

(** ** Further predicates *)

(** The world after one more reading of the clock. *)
Definition ticked (w : world) : world :=
  mkWorld (ucp w) (clock w) (S (ticks w)) (trace w).

(** A clock that never runs backwards. *)
Definition monotone (clk : nat -> Time) : Prop :=
  forall i j, (i <= j)%nat -> clk i <= clk j.

(** The release times of the entries, oldest position first. *)
Definition stamps (l : list udpConnPoolElem) : list Time := map lastUsed l.

(** [l1] is [l2] with some elements left out. *)
Inductive Subseq {A : Type} : list A -> list A -> Prop :=
| Subseq_nil : Subseq [] []
| Subseq_skip x l1 l2 : Subseq l1 l2 -> Subseq l1 (x :: l2)
| Subseq_keep x l1 l2 : Subseq l1 l2 -> Subseq (x :: l1) (x :: l2).

(** The release times of the pool never decrease along the pool and
    none lies after the next reading of the clock. *)
Definition stampsOrdered (w : world) : Prop :=
  match ucp w with
  | Some p =>
      StronglySorted Z.le (stamps (pool p)) /\
      Forall (fun s => s <= clock w (ticks w)) (stamps (pool p))
  | None => True
  end.

(** No entry of the pool was released after its last entry. *)
Definition newestLast (w : world) : Prop :=
  match ucp w with
  | Some p =>
      forall l e, pool p = l ++ [e] ->
                  Forall (fun x => lastUsed x <= lastUsed e) l
  | None => True
  end.

(** The parameters of the pool of [w'] are those of [p]. *)
Definition sameParams (p : udpConnPool) (w' : world) : Prop :=
  exists p', ucp w' = Some p' /\ maxSize p' = maxSize p /\
             ttl p' = ttl p /\ cleannerInterval p' = cleannerInterval p.

(** The pool is there, holds live sockets only and has room left. *)
Definition healthy (w : world) : Prop :=
  exists p, ucp w = Some p /\ allLive (pool p) /\ len (pool p) < maxSize p.

(** ** Concrete inputs *)

(** Modelled from the spec: [utils.GetMsgID] is declared outside
    [upstream.go]; the transaction ID is bytes 0-1 of the message in
    network order. *)
Definition GetMsgID (m : list byte) : Z :=
  match m with
  | b0 :: b1 :: _ => Z.of_N (Byte.to_N b0) * 256 + Z.of_N (Byte.to_N b1)
  | _ => 0
  end.

(** A clock that starts at [t0] and advances one nanosecond a reading. *)
Definition steady (t0 : Time) : nat -> Time := fun n => t0 + Z.of_nat n.

Definition t2020 : Time := 63713000000000000000.

(** A pool of capacity 4 with a TTL and a cleaning interval of 10s. *)
Definition pool4 : world :=
  mkWorld (newUDPConnPool 4 (Second * 10) (Second * 10)) (steady t2020) 0 [].

Fixpoint puts (cs : list conn) : M unit :=
  match cs with
  | [] => ret tt
  | c :: cs' => put (Some c) ;; puts cs'
  end.

(** The pool and the trace a run ends with. *)
Definition outcomeView {A} (o : outcome A)
  : option (list udpConnPoolElem * list event) :=
  match o with
  | Done _ w =>
      match ucp w with
      | Some p => Some (pool p, trace w)
      | None => None
      end
  | _ => None
  end.

(** A 12-byte message (a bare DNS header) with the ID [hi lo]. *)
Definition hdr (hi lo : byte) : list byte :=
  [hi; lo; x01; x00; x00; x01; x00; x00; x00; x00; x00; x00].

Definition q1 : list byte := hdr x00 x01.   (* the query, ID 1 *)
Definition r1 : list byte := hdr x00 x01.   (* a reply to it *)
Definition r2 : list byte := hdr x00 x02.   (* a reply bearing ID 2 *)

(** The UDP upstream [newUpstream] builds. *)
Definition u0 : upstreamUDP :=
  mkUpstreamUDP (mkUDPAddr "127.0.0.1" 53) 1480
    (newUDPConnPool 65535 (Second * 10) (Second * 10)).


(** Dialing gives socket 7; the first reply bears another ID. *)
Definition netMismatch : udpScript :=
  mkUDPScript (fun _ => inl 7%nat) None [ReadOk r2].

(** A reply bearing another ID, then the reply to the query. *)
Definition netStale : udpScript :=
  mkUDPScript (fun _ => inl 7%nat) None [ReadOk r2; ReadOk r1].


Definition tcpMismatch : tcpScript :=
  mkTCPScript (fun _ => inl 3%nat) None (inl r2).

(** The world a run ends in (the world it started in, if it does not
    end), and what it returns. *)
Definition after {A} (m : M A) (w : world) : world :=
  match m w with
  | Done _ w' => w'
  | _ => w
  end.

Definition returned {A} (o : outcome A) : option A :=
  match o with
  | Done a _ => Some a
  | _ => None
  end.

(** [u0] at start, and once socket 9 has been put into its pool. *)
Definition wBoot : world := boot u0 (steady t2020).
Definition wWarm : world := after (put (Some 9%nat)) wBoot.

(** The pool object of a world (a pool of capacity 0 for a nil pool). *)
Definition poolOf (w : world) : udpConnPool :=
  match ucp w with
  | Some p => p
  | None => mkPool 0 [] 0 0 0
  end.

(** A world whose pool pointer is nil, and one whose pool has
    capacity 0. *)
Definition wNil : world := mkWorld None (steady t2020) 0 [].
Definition wOff : world :=
  mkWorld (newUDPConnPool 0 (Second * 10) (Second * 10)) (steady t2020) 0 [].

(** A resolver that knows one address. *)
Definition resolveLocal (s : string) : UDPAddr + error :=
  if (s =? "127.0.0.1:53")%string then inl (mkUDPAddr "127.0.0.1" 53)
  else inr (Errorf ("address " ++ s ++ ": missing port in address")).

(** The first read delivers two bytes only. *)
Definition netShort : udpScript :=
  mkUDPScript (fun _ => inl 7%nat) None [ReadOk [x00; x01]].

(** The read fails with an error that is no timeout. *)
Definition refusedErr : ioError := mkIOError true false 111.
Definition netRefused : udpScript :=
  mkUDPScript (fun _ => inl 7%nat) None [ReadErr refusedErr false].

(** Dialing fails. *)
Definition netDown : udpScript :=
  mkUDPScript (fun _ => inr refusedErr) None [].

(** The write fails. *)
Definition netNoWrite : udpScript :=
  mkUDPScript (fun _ => inl 7%nat) (Some refusedErr) [].

(** An entry released long ago and one just released. *)
Definition oldEntry : udpConnPoolElem := mkElem (Some 1%nat) 0.
Definition newEntry : udpConnPoolElem := mkElem (Some 2%nat) t2020.

(** ** Basic facts about the monad *)

Arguments bind : simpl never.
Arguments ret : simpl never.
Arguments Now : simpl never.
Arguments Since : simpl never.
Arguments Close : simpl never.
Arguments emit : simpl never.
Arguments setPool : simpl never.
Arguments setLastClean : simpl never.
Arguments deref : simpl never.
Arguments land : simpl never.

Create HintDb pool.

Lemma bind_Done {A B} (m : M A) (k : A -> M B) w b w' :
  bind m k w = Done b w' ->
  exists a w1, m w = Done a w1 /\ k a w1 = Done b w'.
Proof.
  unfold bind. destruct (m w) as [a w1| |]; try discriminate.
  intros H. exists a, w1. split; [reflexivity | exact H].
Qed.

Lemma bind_eq {A B} (m : M A) (k : A -> M B) w a w1 :
  m w = Done a w1 -> bind m k w = k a w1.
Proof. unfold bind. intros ->. reflexivity. Qed.

Lemma grows_refl w : grows w w [].
Proof. split; [reflexivity | now rewrite app_nil_r]. Qed.

Lemma grows_trans w1 w2 w3 e1 e2 :
  grows w1 w2 e1 -> grows w2 w3 e2 -> grows w1 w3 (e1 ++ e2).
Proof.
  intros [C1 T1] [C2 T2]. split.
  - congruence.
  - rewrite T2, T1, app_assoc. reflexivity.
Qed.

Lemma Now_Done w t w' :
  Now w = Done t w' ->
  t = clock w (ticks w) /\ ucp w' = ucp w /\ grows w w' [].
Proof.
  unfold Now. intros H. injection H as <- <-. cbn.
  repeat split. now rewrite app_nil_r.
Qed.

Lemma Since_Done t0 w d w' :
  Since t0 w = Done d w' ->
  d = Sub (clock w (ticks w)) t0 /\ ucp w' = ucp w /\ grows w w' [].
Proof.
  unfold Since. intros H. apply bind_Done in H as (t & w1 & HN & HR).
  apply Now_Done in HN as (-> & HU & HG).
  unfold ret in HR. injection HR as <- <-. auto.
Qed.

Lemma Close_Done s c w (u : unit) w' :
  Close s c w = Done u w' ->
  exists k, c = Some k /\ ucp w' = ucp w /\ grows w w' [EvClose s k].
Proof.
  destruct c as [k|]; cbn; [|discriminate].
  unfold emit. intros H. injection H as _ <-. exists k. cbn.
  repeat split.
Qed.

Lemma emit_eq_pool k w :
  Close InPool (Some k) w = Done tt (logged w [EvClose InPool k]).
Proof. reflexivity. Qed.

Lemma setPool_Done l w (u : unit) w' :
  setPool l w = Done u w' ->
  exists p, ucp w = Some p /\
            ucp w' = Some (mkPool (maxSize p) l (ttl p) (lastClean p)
                             (cleannerInterval p)) /\
            ticks w' = ticks w /\ grows w w' [].
Proof.
  unfold setPool. destruct (ucp w) as [p|]; [|discriminate].
  intros H. injection H as _ <-. exists p. cbn.
  repeat split. now rewrite app_nil_r.
Qed.

Lemma deref_Done w p w' :
  deref w = Done p w' -> ucp w = Some p /\ w' = w.
Proof.
  unfold deref. destruct (ucp w); [|discriminate].
  intros H. injection H as <- <-. auto.
Qed.

(** The guard of [put], [get] and [runCleanner] never holds: on a nil
    receiver its second operand panics, on any other the first operand
    is false. *)
Lemma guard_Done (f : udpConnPool -> bool) w g w' :
  land isNil (p <- deref ;; ret (f p)) w = Done g w' ->
  g = false /\ w' = w /\ exists p, ucp w = Some p.
Proof.
  unfold land, bind, isNil, deref, ret. cbn.
  destruct (ucp w) as [p|] eqn:E; cbn; rewrite ?E; [|discriminate].
  intros H. injection H as <- <-. eauto.
Qed.

Lemma guard_Some (f : udpConnPool -> bool) w p :
  ucp w = Some p ->
  land isNil (q <- deref ;; ret (f q)) w = Done false w.
Proof.
  intros H. unfold land, bind, isNil, deref, ret. cbn.
  rewrite H. cbn. reflexivity.
Qed.

Lemma guard_nil (f : udpConnPool -> bool) w :
  ucp w = None ->
  land isNil (q <- deref ;; ret (f q)) w = Panic.
Proof.
  intros H. unfold land, bind, isNil, deref, ret. cbn.
  rewrite H. cbn. rewrite H. reflexivity.
Qed.

(** ** What the pool operations leave unchanged *)

Ltac bind_inv H :=
  let a := fresh "a" in
  let w := fresh "w" in
  let H1 := fresh "H" in
  apply bind_Done in H as (a & w & H1 & H).

Ltac splits := repeat match goal with |- _ /\ _ => split end.

Ltac grows_tac := solve [eauto 8 using grows_trans, grows_refl].

Ltac forall_tac :=
  repeat first
    [ assumption
    | apply Forall_nil
    | apply Forall_app; split
    | apply Forall_cons; [eexists; reflexivity|] ].

Ltac ret_inv H :=
  unfold ret in H; injection H as <- <-.

#[local] Hint Unfold poolEvent : pool.
#[local] Hint Resolve grows_refl : pool.

Lemma poolEvent_close c : poolEvent (EvClose InPool c).
Proof. exists c. reflexivity. Qed.

#[local] Hint Resolve poolEvent_close Forall_nil Forall_app : pool.

(** A completed sweep leaves the pool object alone and logs nothing but
    sockets closed by the pool; what it keeps is no longer than what it
    was given. *)
Lemma sweepExpired_Done t l : forall w res w',
  sweepExpired t l w = Done res w' ->
  ucp w' = ucp w /\ (List.length res <= List.length l)%nat /\
  exists evs, grows w w' evs /\ Forall poolEvent evs.
Proof.
  induction l as [|e l IH]; intros w res w' H; cbn in H.
  - ret_inv H. repeat split; eauto with pool.
  - bind_inv H. apply Since_Done in H0 as (-> & HU & HG).
    destruct (_ <? t).
    + bind_inv H. apply IH in H0 as (HU' & HL & evs & HG' & HF).
      ret_inv H. repeat split.
      * congruence.
      * cbn. lia.
      * exists ([] ++ evs). split; [eapply grows_trans; eauto | auto].
    + bind_inv H. apply Close_Done in H0 as (k & _ & HU1 & HG1).
      apply IH in H as (HU' & HL & evs & HG' & HF).
      repeat split.
      * congruence.
      * cbn. lia.
      * exists (([] ++ [EvClose InPool k]) ++ evs). split.
        -- eapply grows_trans; [eapply grows_trans|]; eauto.
        -- apply Forall_app. split; [|exact HF].
           cbn. constructor; auto with pool.
Qed.

Lemma sweepFull_Done t mid l : forall i w res w',
  sweepFull t mid i l w = Done res w' ->
  ucp w' = ucp w /\ (List.length res <= List.length l)%nat /\
  exists evs, grows w w' evs /\ Forall poolEvent evs.
Proof.
  induction l as [|e l IH]; intros i w res w' H; cbn in H.
  - ret_inv H. repeat split; eauto with pool.
  - bind_inv H.
    assert (Hpre : ucp w0 = ucp w /\
                   exists ev0, grows w w0 ev0 /\ Forall poolEvent ev0).
    { destruct (Z.of_nat i <? mid).
      - bind_inv H0. apply Close_Done in H1 as (k & _ & HU & HG).
        ret_inv H0. split; [exact HU|].
        exists [EvClose InPool k]. split; [exact HG|].
        constructor; auto with pool.
      - ret_inv H0. split; eauto with pool. }
    destruct Hpre as (HU0 & ev0 & HG0 & HF0).
    bind_inv H. apply Since_Done in H1 as (-> & HU1 & HG1).
    destruct (_ <? t).
    + bind_inv H. apply IH in H1 as (HU' & HL & evs & HG' & HF).
      ret_inv H. repeat split.
      * congruence.
      * cbn. lia.
      * exists ((ev0 ++ []) ++ evs). split.
        -- eapply grows_trans; [eapply grows_trans|]; eauto.
        -- rewrite app_nil_r. apply Forall_app. auto.
    + bind_inv H. apply Close_Done in H1 as (k & _ & HU2 & HG2).
      apply IH in H as (HU' & HL & evs & HG' & HF).
      repeat split.
      * congruence.
      * cbn. lia.
      * exists (((ev0 ++ []) ++ [EvClose InPool k]) ++ evs). split.
        -- eapply grows_trans; [eapply grows_trans; [eapply grows_trans|]|];
             eauto.
        -- rewrite app_nil_r. repeat (apply Forall_app; split); auto.
           constructor; auto with pool.
Qed.

Lemma setLastClean_Done t w (u : unit) w' :
  setLastClean t w = Done u w' ->
  exists p, ucp w = Some p /\
            ucp w' = Some (mkPool (maxSize p) (pool p) (ttl p) t
                             (cleannerInterval p)) /\
            ticks w' = ticks w /\ grows w w' [].
Proof.
  unfold setLastClean. destruct (ucp w) as [p|]; [|discriminate].
  intros H. injection H as _ <-. exists p. cbn.
  repeat split. now rewrite app_nil_r.
Qed.

Lemma runCleanner_Done w (u : unit) w' :
  runCleanner w = Done u w' ->
  exists p, ucp w = Some p /\ poolStep w w' (List.length (pool p)).
Proof.
  unfold runCleanner. intros H.
  bind_inv H. apply guard_Done in H0 as (-> & -> & p & Hp).
  bind_inv H. apply deref_Done in H0 as (Hp0 & ->).
  assert (a = p) by congruence. subst a. clear Hp0.
  bind_inv H. apply Since_Done in H0 as (-> & HU0 & HG0).
  bind_inv H.
  assert (Hs : exists p1 ev1,
             ucp w1 = Some p1 /\ maxSize p1 = maxSize p /\ ttl p1 = ttl p /\
             cleannerInterval p1 = cleannerInterval p /\
             (List.length (pool p1) <= List.length (pool p))%nat /\
             grows w0 w1 ev1 /\ Forall poolEvent ev1).
  { destruct (_ >? cleannerInterval p).
    - bind_inv H0. apply Now_Done in H1 as (-> & HU1 & HG1).
      bind_inv H0. apply setLastClean_Done in H1 as (q & Hq & Hq' & _ & HG2).
      assert (q = p) by congruence. subst q.
      bind_inv H0. apply sweepExpired_Done in H1 as (HU3 & HL & evs & HG3 & HF).
      apply setPool_Done in H0 as (q & Hq2 & Hq3 & _ & HG4).
      rewrite HU3, Hq' in Hq2. injection Hq2 as <-.
      do 2 eexists. split; [exact Hq3|].
      splits; try reflexivity; try exact HL; [grows_tac | forall_tac].
    - ret_inv H0. exists p, []. rewrite HU0.
      splits; auto with pool. }
  destruct Hs as (p1 & ev1 & Hp1 & Hm & Ht & Hc & HL & HG1 & HF1).
  bind_inv H. apply deref_Done in H1 as (Hp1' & ->).
  assert (a0 = p1) by congruence. subst a0. clear Hp1'.
  exists p. split; [exact Hp|].
  destruct (_ >=? maxSize p1).
  - bind_inv H. apply sweepFull_Done in H1 as (HU2 & HL2 & evs & HG2 & HF2).
    apply setPool_Done in H as (q & Hq & Hq' & _ & HG3).
    rewrite HU2, Hp1 in Hq. injection Hq as <-.
    exists p. do 2 eexists. split; [exact Hp|]. split; [exact Hq'|].
    splits; try assumption; [cbn; lia | grows_tac | forall_tac].
  - ret_inv H. exists p, p1. eexists. split; [exact Hp|].
    split; [exact Hp1|].
    splits; try assumption; [grows_tac | forall_tac].
Qed.

Lemma put_Done c w (u : unit) w' :
  put c w = Done u w' ->
  exists p, ucp w = Some p /\
            poolStep w w' (Nat.max (List.length (pool p))
                             (Z.to_nat (maxSize p))) /\
            (len (pool p) <= maxSize p -> poolBounded w').
Proof.
  unfold put. intros H.
  bind_inv H. apply guard_Done in H0 as (-> & -> & p & Hp).
  bind_inv H. apply runCleanner_Done in H0 as (q & Hq & HS).
  assert (q = p) by congruence. subst q. clear Hq.
  destruct HS as (q & p1 & ev1 & Hq & Hp1 & Hm & Ht & Hc & HL & HG1 & HF1).
  assert (q = p) by congruence. subst q. clear Hq.
  bind_inv H. apply deref_Done in H0 as (Hp1' & ->).
  assert (a0 = p1) by congruence. subst a0. clear Hp1'.
  exists p. split; [exact Hp|].
  destruct (len (pool p1) >=? maxSize p1) eqn:Hfull.
  - apply Close_Done in H as (k & -> & HU & HG).
    split.
    + exists p, p1. eexists. rewrite HU.
      splits; try assumption; [lia | grows_tac | forall_tac].
    + intros Hb. unfold poolBounded. rewrite HU, Hp1, Hm.
      unfold len in *. lia.
  - bind_inv H. apply Now_Done in H0 as (-> & HU & HG).
    apply setPool_Done in H as (q & Hq & Hq' & _ & HG2).
    rewrite HU, Hp1 in Hq. injection Hq as <-.
    assert (Hlt : len (pool p1) < maxSize p).
    { rewrite <- Hm. rewrite Z.geb_leb in Hfull.
      apply Z.leb_gt in Hfull. exact Hfull. }
    split.
    + exists p. do 2 eexists. split; [exact Hp|]. split; [exact Hq'|].
      splits; try assumption; [|grows_tac | forall_tac].
      cbn. rewrite length_app. cbn. unfold len in Hlt. lia.
    + intros _. unfold poolBounded. rewrite Hq'. cbn.
      unfold len in *. rewrite length_app. cbn. lia.
Qed.

Lemma get_Done w r w' :
  get w = Done r w' ->
  exists p, ucp w = Some p /\
            poolStep w w' (Nat.pred (List.length (pool p))).
Proof.
  unfold get. intros H.
  bind_inv H. apply guard_Done in H0 as (-> & -> & p & Hp).
  bind_inv H. apply runCleanner_Done in H0 as (q & Hq & HS).
  assert (q = p) by congruence. subst q. clear Hq.
  destruct HS as (q & p1 & ev1 & Hq & Hp1 & Hm & Ht & Hc & HL & HG1 & HF1).
  assert (q = p) by congruence. subst q. clear Hq.
  bind_inv H. apply deref_Done in H0 as (Hp1' & ->).
  assert (a0 = p1) by congruence. subst a0. clear Hp1'.
  exists p. split; [exact Hp|].
  destruct (len (pool p1) >? 0) eqn:Hne.
  - destruct (nth_error _ _) as [e|]; [|discriminate].
    bind_inv H. apply setPool_Done in H0 as (q & Hq & Hq' & _ & HG2).
    rewrite Hp1 in Hq. injection Hq as <-.
    assert (HL' : (List.length (firstn (List.length (pool p1) - 1) (pool p1))
                   <= Nat.pred (List.length (pool p)))%nat).
    { rewrite length_firstn. lia. }
    bind_inv H. apply Since_Done in H0 as (-> & HU & HG3).
    destruct (_ >? ttl p1).
    + bind_inv H. apply Close_Done in H0 as (k & _ & HU2 & HG4).
      ret_inv H. exists p. do 2 eexists. split; [exact Hp|].
      split; [rewrite HU2, HU; exact Hq'|].
      splits; try assumption; [grows_tac | forall_tac].
    + ret_inv H. exists p. do 2 eexists. split; [exact Hp|].
      split; [rewrite HU; exact Hq'|].
      splits; try assumption; [grows_tac | forall_tac].
  - ret_inv H. exists p, p1. eexists. split; [exact Hp|].
    split; [exact Hp1|].
    assert (List.length (pool p1) = 0%nat).
    { rewrite Z.gtb_ltb in Hne. apply Z.ltb_ge in Hne.
      unfold len in Hne. lia. }
    splits; try assumption; [lia | grows_tac | forall_tac].
Qed.

Lemma poolStep_bounded w w' n p :
  ucp w = Some p -> poolStep w w' n -> Z.of_nat n <= maxSize p ->
  poolBounded w'.
Proof.
  intros Hp (q & p' & evs & Hq & Hp' & Hm & _ & _ & HL & _) Hn.
  assert (q = p) by congruence. subst q.
  unfold poolBounded, len. rewrite Hp', Hm. lia.
Qed.

Lemma runOp_bounded o w r w' :
  runOp o w = Done r w' -> poolBounded w -> poolBounded w'.
Proof.
  destruct o as [|c]; cbn; intros H Hb.
  - apply get_Done in H as (p & Hp & HS).
    eapply poolStep_bounded; eauto.
    unfold poolBounded in Hb. rewrite Hp in Hb. unfold len in Hb. lia.
  - bind_inv H. apply put_Done in H0 as (p & Hp & _ & HB).
    ret_inv H. apply HB.
    unfold poolBounded in Hb. rewrite Hp in Hb. exact Hb.
Qed.

(** ** The properties of the specification *)

(** C2. The bound [len(pool) <= maxSize] is an invariant of the pool:
    when it holds of a pool, it holds after every [get] and every [put]
    of any sequence of such calls run on it. *)
Theorem pool_never_exceeds_maxSize (ops : list poolOp) (w : world) :
  poolBounded w -> Forall poolBounded (runOps ops w).
Proof.
  revert w. induction ops as [|o ops IH]; intros w Hb; cbn.
  - constructor.
  - destruct (runOp o w) as [r w'| |] eqn:E; try constructor.
    + eapply runOp_bounded; eauto.
    + apply IH. eapply runOp_bounded; eauto.
Qed.

(** A pool built by [newUDPConnPool] with a capacity that is not
    negative starts within its bound. *)
Lemma newUDPConnPool_bounded size t gc clk :
  0 <= size ->
  poolBounded (mkWorld (newUDPConnPool size t gc) clk 0 []).
Proof. intros H. unfold poolBounded. cbn. exact H. Qed.

(** *** Operations on an empty pool *)

Ltac run_pool :=
  repeat (progress (unfold runCleanner, put, get, land, bind, isNil, deref,
                      ret, Since, Now, setLastClean, setPool, Close, emit,
                      panic; cbn)).

Lemma runCleanner_empty w p :
  ucp w = Some p -> pool p = [] ->
  exists w', runCleanner w = Done tt w' /\ emptyPoolOf p w' /\
             grows w w' [].
Proof.
  destruct w as [u clk tk tr], p as [ms pl t lc ci]. cbn.
  intros -> ->. run_pool.
  destruct (Sub (clk tk) lc >? ci); run_pool;
    destruct (0 >=? ms); run_pool;
    eexists; (split; [reflexivity|]);
    (split; [eexists; cbn; splits; reflexivity
            | split; cbn; [reflexivity | now rewrite app_nil_r]]).
Qed.

Lemma put_empty_disabled w p c :
  ucp w = Some p -> pool p = [] -> maxSize p <= 0 ->
  exists w', put (Some c) w = Done tt w' /\ emptyPoolOf p w' /\
             grows w w' [EvClose InPool c].
Proof.
  intros Hp Hl Hm.
  destruct (runCleanner_empty w p Hp Hl) as (w1 & HR & (p1 & Hp1 & Hl1 & Hm1 & Ht1 & Hc1) & HG).
  unfold put. erewrite bind_eq by (eapply guard_Some; eauto). cbn iota.
  erewrite bind_eq by exact HR.
  erewrite bind_eq by (unfold deref; rewrite Hp1; reflexivity).
  rewrite Hl1. cbn [len List.length Z.of_nat].
  replace (0 >=? maxSize p1) with true
    by (symmetry; rewrite Z.geb_leb; apply Z.leb_le; lia).
  eexists. split; [reflexivity|]. split.
  - exists p1. cbn. splits; auto.
  - destruct HG as [HC HT]. split; cbn; [exact HC|].
    rewrite HT, app_nil_r. reflexivity.
Qed.

Lemma get_empty w p :
  ucp w = Some p -> pool p = [] ->
  exists w', get w = Done None w' /\ emptyPoolOf p w' /\ grows w w' [].
Proof.
  intros Hp Hl.
  destruct (runCleanner_empty w p Hp Hl) as (w1 & HR & (p1 & Hp1 & Hl1 & Hm1 & Ht1 & Hc1) & HG).
  unfold get. erewrite bind_eq by (eapply guard_Some; eauto). cbn iota.
  erewrite bind_eq by exact HR.
  erewrite bind_eq by (unfold deref; rewrite Hp1; reflexivity).
  rewrite Hl1. cbn.
  eexists. split; [reflexivity|]. split; [|exact HG].
  exists p1. splits; auto.
Qed.

(** C9. On a nil pool the guard [p == nil && p.maxSize <= 0] of [get]
    and [put] (and its sibling in [runCleanner]) panics while it reads
    the field of the nil receiver, and so do the calls; and on no pool at
    all does the guard come out true, so it never returns early. *)
Theorem nil_pool_guard_faults (w : world) :
  ucp w = None ->
  land isNil (p <- deref ;; ret (maxSize p <=? 0)) w = Panic /\
  get w = Panic /\
  (forall c, put c w = Panic) /\
  runCleanner w = Panic /\
  (forall v g v',
     land isNil (p <- deref ;; ret (maxSize p <=? 0)) v = Done g v' ->
     g = false).
Proof.
  intros H.
  assert (G : forall f, land isNil (q <- deref ;; ret (f q)) w = Panic)
    by (intros f; apply guard_nil; exact H).
  splits.
  - apply G.
  - unfold get, bind at 1. rewrite G. reflexivity.
  - intros c. unfold put, bind at 1. rewrite G. reflexivity.
  - unfold runCleanner, bind at 1. rewrite G. reflexivity.
  - intros v g v' Hg. apply guard_Done in Hg as (-> & _). reflexivity.
Qed.

Lemma emptyPoolOf_trans p p' w w' :
  ucp w = Some p' -> emptyPoolOf p w -> emptyPoolOf p' w' ->
  emptyPoolOf p w'.
Proof.
  intros Hp' (q & Hq & _ & Hm & Ht & Hc) (q' & Hq' & Hl' & Hm' & Ht' & Hc').
  assert (q = p') by congruence. subst q.
  exists q'. splits; auto; congruence.
Qed.

(** On an empty pool without capacity every run of [get]s and [put]s
    completes and leaves the pool empty after each call. *)
Lemma zero_capacity_runs ops : forall w p,
  ucp w = Some p -> maxSize p <= 0 -> pool p = [] ->
  Forall carriesSocket ops ->
  List.length (runOps ops w) = List.length ops /\
  Forall (emptyPoolOf p) (runOps ops w).
Proof.
  induction ops as [|o ops IH]; intros w p Hp Hm Hl Hops.
  - split; [reflexivity | constructor].
  - inversion Hops as [|? ? Ho Hops']; subst.
    assert (Hstep : exists r w', runOp o w = Done r w' /\ emptyPoolOf p w').
    { destruct o as [|[c|]]; cbn [runOp].
      - destruct (get_empty w p Hp Hl) as (w' & HG & HE & _). eauto.
      - destruct (put_empty_disabled w p c Hp Hl Hm) as (w' & HP & HE & _).
        exists None, w'. split; [|exact HE].
        rewrite (bind_eq _ _ _ _ _ HP). reflexivity.
      - destruct Ho. }
    destruct Hstep as (r & w' & Hrun & HE).
    cbn [runOps]. rewrite Hrun.
    pose proof HE as (p' & Hp' & Hl' & Hm' & _).
    destruct (IH w' p' Hp' ltac:(lia) Hl' Hops') as (Hlen & Hall).
    split; [cbn; now rewrite Hlen|].
    constructor; [exact HE|].
    eapply Forall_impl; [|exact Hall].
    intros v Hv. eapply emptyPoolOf_trans; eauto.
Qed.

(** C10. A pool that is not nil, has capacity zero and is empty stays
    so: [put] closes the connection it is given and leaves the pool
    empty, [get] returns nil and leaves the pool empty; hence every run
    of such calls completes with the pool empty after each of them. *)
Theorem zero_capacity_pool_stays_empty (w : world) (p : udpConnPool) :
  ucp w = Some p -> maxSize p = 0 -> pool p = [] ->
  (forall c, exists w',
      put (Some c) w = Done tt w' /\ emptyPoolOf p w' /\
      trace w' = trace w ++ [EvClose InPool c]) /\
  (exists w',
      get w = Done None w' /\ emptyPoolOf p w' /\ trace w' = trace w) /\
  (forall ops,
      Forall carriesSocket ops ->
      List.length (runOps ops w) = List.length ops /\
      Forall (emptyPoolOf p) (runOps ops w)).
Proof.
  intros Hp Hm Hl. splits.
  - intros c.
    destruct (put_empty_disabled w p c Hp Hl) as (w' & HP & HE & HG);
      [lia|].
    exists w'. splits; auto. apply HG.
  - destruct (get_empty w p Hp Hl) as (w' & HP & HE & HG).
    exists w'. splits; auto.
    destruct HG as [_ HT]. now rewrite app_nil_r in HT.
  - intros ops Hops. apply zero_capacity_runs; auto. lia.
Qed.

(** *** The sweep of a full pool *)

(** X16. Whenever the sweep of a full pool completes, each entry of its
    first half is still in the pool, at its place, without its socket. *)
Lemma sweepFull_keeps_first_half t mid l : forall i w res w',
  sweepFull t mid i l w = Done res w' ->
  forall j e, nth_error l j = Some e -> Z.of_nat (i + j) < mid ->
  nth_error res j = Some (mkElem None (lastUsed e)).
Proof.
  induction l as [|a l IH]; intros i w res w' H j e Hj Hlt.
  - destruct j; discriminate.
  - cbn in H. bind_inv H.
    assert (Hi : (Z.of_nat i <? mid) = true) by (apply Z.ltb_lt; lia).
    rewrite Hi in H0. bind_inv H0. ret_inv H0.
    bind_inv H. cbn [lastUsed UDPConn] in H.
    destruct (_ <? t).
    + bind_inv H. ret_inv H. destruct j as [|j].
      * cbn in Hj. injection Hj as ->. reflexivity.
      * cbn. eapply IH; eauto. lia.
    + bind_inv H. discriminate.
Qed.

(** C3, on the code.  Four puts fill [pool4].  The sweep of the full
    pool closes sockets 1 and 2 and keeps their entries, so the pool
    still holds four entries; the fifth [put] then finds the pool full
    and closes socket 5; the sixth meets the entries without socket
    and panics. *)
Theorem capacity_sweep_keeps_closed_entries :
  outcomeView ((puts [1; 2; 3; 4]%nat ;; runCleanner) pool4) =
    Some ([mkElem None (t2020 + 2); mkElem None (t2020 + 4);
           mkElem (Some 3%nat) (t2020 + 6); mkElem (Some 4%nat) (t2020 + 8)],
          [EvClose InPool 1%nat; EvClose InPool 2%nat]) /\
  outcomeView (puts [1; 2; 3; 4; 5]%nat pool4) =
    Some ([mkElem None (t2020 + 2); mkElem None (t2020 + 4);
           mkElem (Some 3%nat) (t2020 + 6); mkElem (Some 4%nat) (t2020 + 8)],
          [EvClose InPool 1%nat; EvClose InPool 2%nat;
           EvClose InPool 5%nat]) /\
  puts [1; 2; 3; 4; 5; 6]%nat pool4 = Panic.
Proof. vm_compute. repeat split. Qed.

Lemma nth_error_last {A} (l : list A) (e : A) :
  nth_error (l ++ [e]) (List.length (l ++ [e]) - 1)%nat = Some e.
Proof.
  rewrite length_app. cbn. replace (List.length l + 1 - 1)%nat
    with (List.length l) by lia.
  rewrite nth_error_app2 by lia. rewrite Nat.sub_diag. reflexivity.
Qed.

Lemma firstn_last {A} (l : list A) (e : A) :
  firstn (List.length (l ++ [e]) - 1)%nat (l ++ [e]) = l.
Proof.
  rewrite length_app. cbn. replace (List.length l + 1 - 1)%nat
    with (List.length l) by lia.
  rewrite firstn_app, Nat.sub_diag, firstn_all. cbn. apply app_nil_r.
Qed.

(** *** Pools that hold sockets only and have room *)

Lemma Since_eq t0 w :
  Since t0 w = Done (Sub (clock w (ticks w)) t0)
                 (mkWorld (ucp w) (clock w) (S (ticks w)) (trace w)).
Proof. reflexivity. Qed.

(** The scheduled sweep of a pool of live sockets completes and keeps
    live sockets only. *)
Lemma sweepExpired_total t l :
  allLive l -> forall w,
  exists res w', sweepExpired t l w = Done res w' /\ allLive res.
Proof.
  induction 1 as [|e l He _ IH]; intros w; cbn [sweepExpired].
  - exists [], w. split; [reflexivity | constructor].
  - rewrite (bind_eq _ _ _ _ _ (Since_eq _ _)).
    destruct (_ <? t).
    + destruct (IH (mkWorld (ucp w) (clock w) (S (ticks w)) (trace w)))
        as (res & w' & HS & HL).
      exists (e :: res), w'. rewrite (bind_eq _ _ _ _ _ HS).
      split; [reflexivity | constructor; assumption].
    + destruct (UDPConn e) as [k|] eqn:Hk; [|contradiction].
      rewrite (bind_eq _ _ _ _ _ (emit_eq_pool _ _)).
      apply IH.
Qed.

(** On a pool of live sockets with room left the cleaning completes,
    and leaves such a pool. *)
Lemma runCleanner_total w p :
  ucp w = Some p -> allLive (pool p) -> len (pool p) < maxSize p ->
  exists w' p',
    runCleanner w = Done tt w' /\ ucp w' = Some p' /\
    allLive (pool p') /\
    (List.length (pool p') <= List.length (pool p))%nat /\
    maxSize p' = maxSize p.
Proof.
  intros Hp Hlive Hroom.
  assert (Hsched : exists w1 p1,
      (p0 <- deref ;;
       since <- Since (lastClean p0) ;;
       if since >? cleannerInterval p0 then
         now <- Now ;;
         setLastClean now ;;
         res <- sweepExpired (ttl p0) (pool p0) ;;
         setPool res
       else ret tt) w = Done tt w1 /\
      ucp w1 = Some p1 /\ allLive (pool p1) /\
      (List.length (pool p1) <= List.length (pool p))%nat /\
      maxSize p1 = maxSize p).
  { assert (Hd : deref w = Done p w) by (unfold deref; now rewrite Hp).
    rewrite (bind_eq _ _ _ _ _ Hd), (bind_eq _ _ _ _ _ (Since_eq _ _)).
    destruct (_ >? cleannerInterval p).
    - unfold Now at 1, bind at 1. cbn [ucp clock ticks trace].
      unfold setLastClean at 1, bind at 1. cbn [ucp clock ticks trace].
      rewrite Hp.
      match goal with
      | |- context [bind (sweepExpired ?t ?l) _ ?v] =>
          destruct (sweepExpired_total t l Hlive v) as (res & w1 & HS & HL);
          pose proof (sweepExpired_Done _ _ _ _ _ HS) as (HU & HLen & _)
      end.
      rewrite (bind_eq _ _ _ _ _ HS).
      unfold setPool. rewrite HU. cbn [ucp].
      do 2 eexists. split; [reflexivity|]. cbn. splits; auto.
    - exists (mkWorld (ucp w) (clock w) (S (ticks w)) (trace w)), p.
      split; [reflexivity|]. cbn. splits; auto. }
  destruct Hsched as (w1 & p1 & HS & Hp1 & HL1 & HLen & Hm).
  exists w1, p1. split; [|splits; auto].
  unfold runCleanner.
  rewrite (bind_eq _ _ _ _ _ (guard_Some _ _ _ Hp)). cbn iota.
  unfold bind at 1. unfold bind at 1 in HS.
  destruct (deref w) as [p0 v| |]; try discriminate.
  unfold bind at 1. unfold bind at 1 in HS.
  destruct (Since (lastClean p0) v) as [d v'| |]; try discriminate.
  unfold bind at 1. rewrite HS.
  assert (Hd : deref w1 = Done p1 w1) by (unfold deref; now rewrite Hp1).
  rewrite (bind_eq _ _ _ _ _ Hd).
  replace (len (pool p1) >=? maxSize p1) with false; [reflexivity|].
  symmetry. rewrite Z.geb_leb. apply Z.leb_gt. unfold len in *. lia.
Qed.

(** On such a pool [put] completes. *)
Lemma put_total w p c :
  ucp w = Some p -> allLive (pool p) -> len (pool p) < maxSize p ->
  exists w', put (Some c) w = Done tt w'.
Proof.
  intros Hp Hlive Hroom.
  destruct (runCleanner_total w p Hp Hlive Hroom)
    as (w1 & p1 & HR & Hp1 & _ & HLen & Hm).
  unfold put.
  rewrite (bind_eq _ _ _ _ _ (guard_Some _ _ _ Hp)). cbn iota.
  rewrite (bind_eq _ _ _ _ _ HR).
  assert (Hd : deref w1 = Done p1 w1) by (unfold deref; now rewrite Hp1).
  rewrite (bind_eq _ _ _ _ _ Hd).
  replace (len (pool p1) >=? maxSize p1) with false.
  - unfold bind, Now, setPool. cbn [ucp]. rewrite Hp1. eauto.
  - symmetry. rewrite Z.geb_leb. apply Z.leb_gt. unfold len in *. lia.
Qed.

(** On such a pool [get] completes. *)
Lemma get_total w p :
  ucp w = Some p -> allLive (pool p) -> len (pool p) < maxSize p ->
  exists r w', get w = Done r w'.
Proof.
  intros Hp Hlive Hroom.
  destruct (runCleanner_total w p Hp Hlive Hroom)
    as (w1 & p1 & HR & Hp1 & HL1 & _ & _).
  unfold get.
  rewrite (bind_eq _ _ _ _ _ (guard_Some _ _ _ Hp)). cbn iota.
  rewrite (bind_eq _ _ _ _ _ HR).
  assert (Hd : deref w1 = Done p1 w1) by (unfold deref; now rewrite Hp1).
  rewrite (bind_eq _ _ _ _ _ Hd).
  destruct (pool p1) as [|e0 l0] eqn:Hl using rev_ind.
  - cbn. eauto.
  - rewrite nth_error_last, firstn_last.
    replace (len (l0 ++ [e0]) >? 0) with true.
    2:{ symmetry. rewrite Z.gtb_ltb. apply Z.ltb_lt.
        unfold len. rewrite length_app. cbn. lia. }
    unfold bind at 1, setPool. rewrite Hp1.
    rewrite (bind_eq _ _ _ _ _ (Since_eq _ _)).
    destruct (_ >? ttl p1); [|unfold ret; eauto].
    apply Forall_app in HL1 as [_ HL1]. inversion HL1 as [|? ? He _]; subst.
    destruct (UDPConn e0) as [k|]; [|contradiction].
    rewrite (bind_eq _ _ _ _ _ (emit_eq_pool _ _)). unfold ret. eauto.
Qed.

(** *** The UDP exchange *)


Section ExchangeFacts.

Variable getID : list byte -> Z.

Lemma emit_eq e w : emit e w = Done tt (logged w [e]).
Proof. reflexivity. Qed.

(** On a reused connection the loop reads past every reply of at least
    12 bytes that bears another ID. *)
Lemma readLoop_skip c q stale rs w :
  Forall (fun d => 12 <= len d /\ getID d <> getID q) stale ->
  readLoop getID c false q (map ReadOk stale ++ rs) w =
  readLoop getID c false q rs w.
Proof.
  induction 1 as [|d stale [Hlen Hid] _ IH]; cbn [map app readLoop].
  - reflexivity.
  - replace (len d <? 12) with false by (symmetry; apply Z.ltb_ge; lia).
    replace (getID d =? getID q) with false
      by (symmetry; apply Z.eqb_neq; exact Hid).
    cbn. exact IH.
Qed.


Lemma obtained_get u net w c isNew w1 :
  obtained u net w = Some (c, isNew, w1) ->
  exists got, get w = Done got w1 /\
    (match got with
     | Some c' => inl (c', false)
     | None => match dialUDP net (addr u) with
               | inl c' => inl (c', true)
               | inr e => inr e
               end
     end) = inl (c, isNew).
Proof.
  unfold obtained. destruct (get w) as [[c'|] w1'| |]; try discriminate.
  - intros H. injection H as <- <- <-. eexists. split; reflexivity.
  - destruct (dialUDP net (addr u)) as [c'|e] eqn:Hd; try discriminate.
    intros H. injection H as <- <- <-. exists None.
    split; reflexivity.
Qed.

(** The exchange up to the first read, once a connection is there and
    the query is written. *)
Lemma exchangeUDP_reads u net q w c isNew w1 :
  obtained u net w = Some (c, isNew, w1) ->
  writeErr net = None ->
  exchangeUDP getID u net q w =
  readLoop getID c isNew q (reads net)
    (logged w1 [EvAcquire (maxUDPSize u)]).
Proof.
  intros Hob Hwr. apply obtained_get in Hob as (got & Hget & Hc).
  unfold exchangeUDP. rewrite (bind_eq _ _ _ _ _ Hget).
  cbn iota beta. rewrite Hc, Hwr.
  rewrite (bind_eq _ _ _ _ _ (emit_eq _ _)). reflexivity.
Qed.


(** Counting events. *)










Lemma emit_Done e w (u : unit) w' : emit e w = Done u w' -> w' = logged w [e].
Proof. unfold emit. intros H. injection H as _ <-. reflexivity. Qed.




(** On a connection just dialed the first reply of at least 12 bytes is
    returned whatever ID it bears: line 181 of the source only asks for
    another read when the connection is reused. *)
Lemma fresh_conn_returns_first_reply u net q w w1 w2 c rRaw rest :
  obtained u net w = Some (c, true, w1) ->
  writeErr net = None ->
  reads net = ReadOk rRaw :: rest ->
  12 <= len rRaw ->
  put (Some c) (logged (logged w1 [EvAcquire (maxUDPSize u)]) [EvPut c])
    = Done tt w2 ->
  exchangeUDP getID u net q w = Done (Some rRaw, None) w2.
Proof.
  intros Hob Hwr Hrd Hlen Hput.
  rewrite (exchangeUDP_reads _ _ _ _ _ _ _ Hob Hwr), Hrd.
  cbn [readLoop].
  replace (len rRaw <? 12) with false by (symmetry; apply Z.ltb_ge; lia).
  rewrite andb_false_r.
  rewrite (bind_eq _ _ _ _ _ (emit_eq _ _)).
  rewrite (bind_eq _ _ _ _ _ Hput).
  reflexivity.
Qed.

(** Over TCP a reply that bears another ID is released and the exchange
    fails with [dns.ErrId]. *)
Lemma tcp_mismatch_fails u net q w c rRaw :
  dialTCP net (tcpAddr u) = inl c ->
  tcpWriteErr net = None ->
  tcpRead net = inl rRaw ->
  getID rRaw <> getID q ->
  exchangeTCP getID u net q w =
  Done (None, Some ErrId) (logged (logged w [EvRelease])
                             [EvClose InExchange c]).
Proof.
  intros Hd Hw Hr Hid. unfold exchangeTCP. rewrite Hd, Hw, Hr.
  replace (getID rRaw =? getID q) with false
    by (symmetry; apply Z.eqb_neq; exact Hid).
  reflexivity.
Qed.

End ExchangeFacts.

(** C1, on the code.  The reply [r2] bears another ID than the query
    [q1].  Over TCP the exchange fails with [dns.ErrId] and returns no
    reply.  Over UDP, on the connection dialed because the pool is empty,
    [Exchange] returns [r2] and no error. *)
Theorem fresh_udp_conn_returns_mismatched_reply :
  GetMsgID r2 <> GetMsgID q1 /\
  returned (get wBoot) = Some None /\
  returned (ExchangeUDP GetMsgID u0 netMismatch q1 wBoot)
    = Some (Some r2, 5, None) /\
  returned (ExchangeTCP GetMsgID (mkUpstreamTCP "127.0.0.1:53") tcpMismatch
              q1 wBoot)
    = Some (None, 1, Some ErrId).
Proof. vm_compute. repeat split. discriminate. Qed.

(** *** [get] *)


(** *** The factory *)

(** C8. For the transport ["udp"] or [""], [newUpstream] fails exactly
    when the address does not resolve, with the error of the resolver;
    otherwise it returns a UDP upstream for the resolved address with a
    maximum payload of 1480 bytes and an empty pool of capacity 65535
    whose TTL and cleaning interval are 10 seconds. *)
Theorem newUpstream_udp
  (resolve : string -> UDPAddr + error) (queryTimeout : Duration)
  (address prot url : string) (rootCAs : option nat) :
  prot = "udp"%string \/ prot = ""%string ->
  ((exists err, newUpstream resolve queryTimeout address prot url rootCAs
                = inr err) <->
   (exists err, resolve address = inr err)) /\
  match resolve address with
  | inr err =>
      newUpstream resolve queryTimeout address prot url rootCAs = inr err
  | inl a =>
      newUpstream resolve queryTimeout address prot url rootCAs =
      inl (UpUDP (mkUpstreamUDP a 1480
                    (Some (mkPool 65535 [] (10 * Second) 0 (10 * Second)))))
  end.
Proof.
  intros Hprot.
  assert (E : newUpstream resolve queryTimeout address prot url rootCAs =
              match resolve address with
              | inr err => inr err
              | inl a =>
                  inl (UpUDP (mkUpstreamUDP a 1480
                                (Some (mkPool 65535 [] (10 * Second) 0
                                         (10 * Second)))))
              end).
  { destruct Hprot as [-> | ->]; reflexivity. }
  rewrite E. split.
  - destruct (resolve address) as [a|err]; split; intros [e He];
      try discriminate; eauto.
  - destruct (resolve address); reflexivity.
Qed.

(** ** The properties at concrete inputs *)

Lemma pool_never_exceeds_maxSize_witness :
  poolBounded pool4 /\
  Forall poolBounded
    (runOps [OpPut (Some 1%nat); OpPut (Some 2%nat); OpGet;
             OpPut (Some 3%nat)] pool4).
Proof.
  assert (H : poolBounded pool4) by (unfold poolBounded; cbn; lia).
  split; [exact H | apply (pool_never_exceeds_maxSize _ pool4 H)].
Defined.

Lemma nil_pool_guard_faults_witness :
  ucp wNil = None /\ get wNil = Panic /\ put (Some 1%nat) wNil = Panic.
Proof.
  assert (H : ucp wNil = None) by reflexivity.
  destruct (nil_pool_guard_faults wNil H) as (_ & Hg & Hp & _).
  split; [exact H | split; [exact Hg | apply Hp]].
Defined.

Lemma zero_capacity_pool_stays_empty_witness :
  maxSize (poolOf wOff) = 0 /\ pool (poolOf wOff) = [] /\
  (exists w', put (Some 5%nat) wOff = Done tt w' /\
              emptyPoolOf (poolOf wOff) w' /\
              trace w' = trace wOff ++ [EvClose InPool 5%nat]) /\
  (exists w', get wOff = Done None w' /\ emptyPoolOf (poolOf wOff) w' /\
              trace w' = trace wOff).
Proof.
  destruct (zero_capacity_pool_stays_empty wOff (poolOf wOff)
              eq_refl eq_refl eq_refl) as (Hp & Hg & _).
  split; [reflexivity | split; [reflexivity | split; [apply Hp | exact Hg]]].
Defined.





Lemma newUpstream_udp_witness :
  newUpstream resolveLocal (5 * Second) "127.0.0.1:53" "udp" "" None
    = inl (UpUDP u0) /\
  newUpstream resolveLocal (5 * Second) "bad addr" "" "" None
    = inr (Errorf "address bad addr: missing port in address").
Proof.
  split.
  - exact (proj2 (newUpstream_udp resolveLocal (5 * Second) "127.0.0.1:53"
                    "udp" "" None (or_introl eq_refl))).
  - exact (proj2 (newUpstream_udp resolveLocal (5 * Second) "bad addr"
                    "" "" None (or_intror eq_refl))).
Defined.

(** Further runs: the pool hands sockets out last in, first out; the
    factory refuses DoH without a URL and an unknown transport. *)
Example get_is_lifo :
  returned ((puts [1; 2; 3]%nat ;;
             a <- get ;; b <- get ;; c <- get ;; d <- get ;;
             ret [a; b; c; d]) pool4)
  = Some [Some 3%nat; Some 2%nat; Some 1%nat; None].
Proof. vm_compute. reflexivity. Qed.

Example newUpstream_doh_needs_url :
  newUpstream resolveLocal (5 * Second) "" "doh" "" None
  = inr (Errorf "protocol [doh] needs URL").
Proof. reflexivity. Qed.

Example newUpstream_unknown_transport :
  newUpstream resolveLocal (5 * Second) "127.0.0.1:53" "quic" "" None
  = inr (Errorf "unsupport protocol: quic").
Proof. reflexivity. Qed.

(** ** Further properties of the pool *)

Lemma Since_exact t0 w d w' :
  Since t0 w = Done d w' ->
  d = Sub (clock w (ticks w)) t0 /\ w' = ticked w.
Proof.
  rewrite Since_eq. intros H. injection H as <- <-. split; reflexivity.
Qed.

Lemma Now_exact w t w' :
  Now w = Done t w' -> t = clock w (ticks w) /\ w' = ticked w.
Proof.
  unfold Now. intros H. injection H as <- <-. split; reflexivity.
Qed.

Lemma Close_exact s c w (u : unit) w' :
  Close s c w = Done u w' ->
  exists k, c = Some k /\ w' = logged w [EvClose s k].
Proof.
  destruct c as [k|]; [|discriminate].
  intros H. apply emit_Done in H. eauto.
Qed.

Lemma Subseq_refl {A} (l : list A) : Subseq l l.
Proof. induction l; constructor; assumption. Qed.

Lemma Subseq_Forall {A} (P : A -> Prop) (l1 l2 : list A) :
  Subseq l1 l2 -> Forall P l2 -> Forall P l1.
Proof.
  induction 1; intros HF; auto; inversion HF; subst; auto.
Qed.

Lemma Subseq_sorted (l1 l2 : list Z) :
  Subseq l1 l2 -> StronglySorted Z.le l2 -> StronglySorted Z.le l1.
Proof.
  induction 1 as [|x l1 l2 HS IH|x l1 l2 HS IH]; intros Hs.
  - constructor.
  - inversion Hs; subst. auto.
  - inversion Hs; subst. constructor; [auto|].
    eapply Subseq_Forall; eauto.
Qed.

Lemma Subseq_trans {A} (l1 l2 l3 : list A) :
  Subseq l1 l2 -> Subseq l2 l3 -> Subseq l1 l3.
Proof.
  intros H12 H23. revert l1 H12.
  induction H23 as [|x l2 l3 H IH|x l2 l3 H IH]; intros l1 H12.
  - exact H12.
  - constructor. auto.
  - inversion H12; subst.
    + apply Subseq_skip. auto.
    + apply Subseq_keep. auto.
Qed.

Lemma Subseq_map {A B} (f : A -> B) (l1 l2 : list A) :
  Subseq l1 l2 -> Subseq (map f l1) (map f l2).
Proof. induction 1; cbn; constructor; assumption. Qed.

Lemma Subseq_length {A} (l1 l2 : list A) :
  Subseq l1 l2 -> (List.length l1 <= List.length l2)%nat.
Proof. induction 1; cbn; lia. Qed.

(** X1. A scheduled sweep that completes reads the clock once for each
    entry; it keeps entries as they are and in their order, each of
    them younger than the TTL at a reading taken during the sweep; and
    it closes one socket, as the pool, for each entry it leaves out. *)
Theorem scheduled_sweep_keeps_fresh t l : forall w res w',
  sweepExpired t l w = Done res w' ->
  Subseq res l /\
  Forall (fun e => exists k, (ticks w <= k < ticks w + List.length l)%nat /\
                             Sub (clock w k) (lastUsed e) < t) res /\
  exists evs,
    w' = mkWorld (ucp w) (clock w) (ticks w + List.length l)
           (trace w ++ evs) /\
    Forall poolEvent evs /\
    (List.length res + List.length evs = List.length l)%nat.
Proof.
  induction l as [|e l IH]; intros w res w' H; cbn [sweepExpired] in H.
  - ret_inv H. splits; [constructor | constructor |].
    exists []. splits; [|constructor|reflexivity].
    destruct w. cbn. rewrite Nat.add_0_r, app_nil_r. reflexivity.
  - bind_inv H. apply Since_exact in H0 as (-> & ->).
    destruct (Sub (clock w (ticks w)) (lastUsed e) <? t) eqn:Hage.
    + bind_inv H. apply IH in H0 as (HS & HF & evs & -> & HP & HL).
      ret_inv H. cbn [ticked ucp clock ticks trace] in *.
      splits.
      * apply Subseq_keep. exact HS.
      * constructor.
        -- exists (ticks w). split; [cbn; lia|]. apply Z.ltb_lt. exact Hage.
        -- eapply Forall_impl; [|exact HF]. cbn.
           intros x (k & Hk & Hx). exists k. split; [lia|exact Hx].
      * exists evs. splits; auto; [|cbn; lia].
        f_equal. cbn. lia.
    + bind_inv H. apply Close_exact in H0 as (c & _ & ->).
      apply IH in H as (HS & HF & evs & -> & HP & HL).
      cbn [ticked logged ucp clock ticks trace] in *.
      splits.
      * apply Subseq_skip. exact HS.
      * eapply Forall_impl; [|exact HF]. cbn.
        intros x (k & Hk & Hx). exists k. split; [lia|exact Hx].
      * exists (EvClose InPool c :: evs). splits.
        -- f_equal; [cbn; lia|]. rewrite <- app_assoc. reflexivity.
        -- constructor; [apply poolEvent_close | exact HP].
        -- cbn. lia.
Qed.

(** The part of the scheduled sweep the other operations rely on. *)
Lemma scheduled_sweep_frame t l w res w' :
  sweepExpired t l w = Done res w' ->
  Subseq res l /\
  exists evs, w' = mkWorld (ucp w) (clock w) (ticks w + List.length l)
                     (trace w ++ evs).
Proof.
  revert w res w'.
  induction l as [|e l IH]; intros w res w' H; cbn [sweepExpired] in H.
  - ret_inv H. split; [constructor|]. exists [].
    destruct w. cbn. rewrite Nat.add_0_r, app_nil_r. reflexivity.
  - bind_inv H. apply Since_exact in H0 as (-> & ->).
    destruct (_ <? t).
    + bind_inv H. apply IH in H0 as (HS & evs & ->). ret_inv H.
      split; [apply Subseq_keep; exact HS|].
      exists evs. cbn. f_equal. lia.
    + bind_inv H. apply Close_exact in H0 as (c & _ & ->).
      apply IH in H as (HS & evs & ->).
      split; [apply Subseq_skip; exact HS|].
      exists (EvClose InPool c :: evs). cbn. f_equal; [lia|].
      rewrite <- app_assoc. reflexivity.
Qed.

Lemma setPool_exact l w (u : unit) w' :
  setPool l w = Done u w' ->
  exists p, ucp w = Some p /\
            w' = mkWorld (Some (mkPool (maxSize p) l (ttl p) (lastClean p)
                                  (cleannerInterval p)))
                   (clock w) (ticks w) (trace w).
Proof.
  unfold setPool. destruct (ucp w) as [p|]; [|discriminate].
  intros H. injection H as _ <-. eauto.
Qed.

Lemma setLastClean_exact t w (u : unit) w' :
  setLastClean t w = Done u w' ->
  exists p, ucp w = Some p /\
            w' = mkWorld (Some (mkPool (maxSize p) (pool p) (ttl p) t
                                  (cleannerInterval p)))
                   (clock w) (ticks w) (trace w).
Proof.
  unfold setLastClean. destruct (ucp w) as [p|]; [|discriminate].
  intros H. injection H as _ <-. eauto.
Qed.

(** The sweep of a full pool keeps release times in their order. *)
Lemma sweepFull_stamps t mid l : forall i w res w',
  sweepFull t mid i l w = Done res w' ->
  Subseq (stamps res) (stamps l) /\
  ucp w' = ucp w /\ clock w' = clock w /\
  ticks w' = (ticks w + List.length l)%nat.
Proof.
  induction l as [|e l IH]; intros i w res w' H; cbn [sweepFull] in H.
  - ret_inv H. splits; auto. constructor.
  - apply bind_Done in H as (e1 & v1 & Hpre & H).
    assert (Hfacts : lastUsed e1 = lastUsed e /\ ucp v1 = ucp w /\
                     clock v1 = clock w /\ ticks v1 = ticks w).
    { destruct (Z.of_nat i <? mid).
      - apply bind_Done in Hpre as (x & v0 & Hc & Hpre).
        apply Close_exact in Hc as (k & _ & ->).
        ret_inv Hpre. splits; reflexivity.
      - ret_inv Hpre. splits; reflexivity. }
    destruct Hfacts as (Hst & HU0 & HC0 & HT0).
    apply bind_Done in H as (d & v2 & Hs & H).
    apply Since_exact in Hs as (-> & ->).
    destruct (_ <? t).
    + apply bind_Done in H as (res' & v3 & Hrec & H).
      apply IH in Hrec as (HS & HU & HC & HT).
      ret_inv H. cbn [ticked ucp clock ticks] in *.
      splits; try congruence; [|cbn; lia].
      cbn [stamps map]. rewrite Hst. apply Subseq_keep. exact HS.
    + apply bind_Done in H as (x & v3 & Hc & H).
      apply Close_exact in Hc as (k & _ & ->).
      apply IH in H as (HS & HU & HC & HT).
      cbn [ticked logged ucp clock ticks] in *.
      splits; try congruence; [|cbn; lia].
      cbn [stamps map]. apply Subseq_skip. exact HS.
Qed.

(** What a completed cleaning does: the parameters stay, the release
    times left are a part of those there were, in their order, and the
    clock has been read. *)
Lemma runCleanner_inv w (u : unit) w' :
  runCleanner w = Done u w' ->
  exists p p',
    ucp w = Some p /\ ucp w' = Some p' /\
    maxSize p' = maxSize p /\ ttl p' = ttl p /\
    cleannerInterval p' = cleannerInterval p /\
    Subseq (stamps (pool p')) (stamps (pool p)) /\
    clock w' = clock w /\ (ticks w < ticks w')%nat.
Proof.
  unfold runCleanner. intros H.
  apply bind_Done in H as (g & v0 & Hg & H).
  apply guard_Done in Hg as (-> & -> & p & Hp).
  apply bind_Done in H as (q & v1 & Hd & H).
  apply deref_Done in Hd as (Hq & ->).
  assert (q = p) by congruence. subst q. clear Hq.
  apply bind_Done in H as (d & v2 & Hs & H).
  apply Since_exact in Hs as (-> & ->).
  apply bind_Done in H as (x & v3 & Hsched & H).
  assert (Hs : exists p1,
             ucp v3 = Some p1 /\ maxSize p1 = maxSize p /\ ttl p1 = ttl p /\
             cleannerInterval p1 = cleannerInterval p /\
             Subseq (stamps (pool p1)) (stamps (pool p)) /\
             clock v3 = clock w /\ (ticks w < ticks v3)%nat).
  { destruct (_ >? cleannerInterval p).
    - apply bind_Done in Hsched as (n & v4 & Hn & Hsched).
      apply Now_exact in Hn as (-> & ->).
      apply bind_Done in Hsched as (y & v5 & Hl & Hsched).
      apply setLastClean_exact in Hl as (q & Hq & ->).
      cbn [ticked ucp] in Hq. assert (q = p) by congruence. subst q.
      apply bind_Done in Hsched as (res & v6 & Hsw & Hsched).
      apply scheduled_sweep_frame in Hsw as (HS & evs & ->).
      apply setPool_exact in Hsched as (q & Hq2 & ->).
      cbn [ucp] in Hq2. injection Hq2 as <-.
      eexists. split; [reflexivity|]. cbn.
      splits; auto; try lia. apply Subseq_map. exact HS.
    - ret_inv Hsched. exists p. cbn.
      splits; auto; try lia. apply Subseq_refl. }
  destruct Hs as (p1 & Hp1 & Hm & Ht & Hc & HS & HC & HT).
  apply bind_Done in H as (q & v4 & Hd & H).
  apply deref_Done in Hd as (Hq & ->).
  assert (q = p1) by congruence. subst q. clear Hq.
  exists p.
  destruct (_ >=? maxSize p1).
  - apply bind_Done in H as (res & v5 & Hsw & H).
    apply sweepFull_stamps in Hsw as (HS2 & HU2 & HC2 & HT2).
    apply setPool_exact in H as (q & Hq & ->).
    rewrite HU2, Hp1 in Hq. injection Hq as <-.
    eexists. split; [exact Hp|]. split; [reflexivity|]. cbn.
    splits; auto; try congruence; try lia.
    eapply Subseq_trans; eauto.
  - ret_inv H. exists p1. splits; auto.
Qed.

(** What a completed [put] and a completed [get] did, step by step. *)
Lemma put_inv c w (u : unit) w' :
  put c w = Done u w' ->
  exists w1 p1,
    runCleanner w = Done tt w1 /\ ucp w1 = Some p1 /\
    ((maxSize p1 <= len (pool p1) /\
      exists k, c = Some k /\ w' = logged w1 [EvClose InPool k]) \/
     (len (pool p1) < maxSize p1 /\
      w' = mkWorld
             (Some (mkPool (maxSize p1)
                      (pool p1 ++ [mkElem c (clock w1 (ticks w1))])
                      (ttl p1) (lastClean p1) (cleannerInterval p1)))
             (clock w1) (S (ticks w1)) (trace w1))).
Proof.
  unfold put. intros H.
  apply bind_Done in H as (g & v0 & Hg & H).
  apply guard_Done in Hg as (-> & -> & p & Hp).
  apply bind_Done in H as ([] & w1 & HR & H).
  apply bind_Done in H as (p1 & v1 & Hd & H).
  apply deref_Done in Hd as (Hp1 & ->).
  exists w1, p1. split; [exact HR|]. split; [exact Hp1|].
  destruct (len (pool p1) >=? maxSize p1) eqn:Hfull.
  - left. rewrite Z.geb_leb in Hfull. apply Z.leb_le in Hfull.
    split; [exact Hfull|]. apply Close_exact in H. exact H.
  - right. rewrite Z.geb_leb in Hfull. apply Z.leb_gt in Hfull.
    split; [exact Hfull|].
    apply bind_Done in H as (n & v2 & Hn & H).
    apply Now_exact in Hn as (-> & ->).
    apply setPool_exact in H as (q & Hq & ->).
    cbn [ticked ucp] in Hq. assert (q = p1) by congruence. subst q.
    reflexivity.
Qed.

Lemma get_inv w r w' :
  get w = Done r w' ->
  exists w1 p1,
    runCleanner w = Done tt w1 /\ ucp w1 = Some p1 /\
    ((pool p1 = [] /\ r = None /\ w' = w1) \/
     (exists l e,
         pool p1 = l ++ [e] /\
         let w2 := mkWorld
                     (Some (mkPool (maxSize p1) l (ttl p1) (lastClean p1)
                              (cleannerInterval p1)))
                     (clock w1) (S (ticks w1)) (trace w1) in
         ((Sub (clock w1 (ticks w1)) (lastUsed e) > ttl p1 /\ r = None /\
           exists k, UDPConn e = Some k /\
                     w' = logged w2 [EvClose InPool k]) \/
          (Sub (clock w1 (ticks w1)) (lastUsed e) <= ttl p1 /\
           r = UDPConn e /\ w' = w2)))).
Proof.
  unfold get. intros H.
  apply bind_Done in H as (g & v0 & Hg & H).
  apply guard_Done in Hg as (-> & -> & p & Hp).
  apply bind_Done in H as ([] & w1 & HR & H).
  apply bind_Done in H as (p1 & v1 & Hd & H).
  apply deref_Done in Hd as (Hp1 & ->).
  exists w1, p1. split; [exact HR|]. split; [exact Hp1|].
  destruct (pool p1) as [|e l _] eqn:Hl using rev_ind.
  - left. cbn in H. ret_inv H. auto.
  - right. exists l, e. split; [reflexivity|].
    rewrite nth_error_last, firstn_last in H.
    replace (len (l ++ [e]) >? 0) with true in H.
    2:{ symmetry. rewrite Z.gtb_ltb. apply Z.ltb_lt.
        unfold len. rewrite length_app. cbn. lia. }
    apply bind_Done in H as (x & v2 & Hs & H).
    apply setPool_exact in Hs as (q & Hq & ->).
    assert (q = p1) by congruence. subst q.
    apply bind_Done in H as (d & v3 & Hs & H).
    apply Since_exact in Hs as (-> & ->).
    cbn [ticked ucp clock ticks trace] in *.
    destruct (_ >? ttl p1) eqn:Hage.
    + left. rewrite Z.gtb_ltb in Hage. apply Z.ltb_lt in Hage.
      apply bind_Done in H as (y & v4 & Hc & H).
      apply Close_exact in Hc as (k & Hk & ->). ret_inv H.
      split; [lia|]. split; [reflexivity|]. exists k. split; auto.
    + right. rewrite Z.gtb_ltb in Hage. apply Z.ltb_ge in Hage.
      ret_inv H. auto.
Qed.

(** X2. A [put] that completes either finds the cleaned pool full and
    closes the connection, leaving the pool as the cleaning left it, or
    appends the connection as the last entry, stamped with the reading
    of the clock, and closes nothing. *)
Theorem put_closes_or_stores (c : conn) (w w' : world) (u : unit) :
  put (Some c) w = Done u w' ->
  exists w1 p1 p',
    runCleanner w = Done tt w1 /\ ucp w1 = Some p1 /\ ucp w' = Some p' /\
    ((maxSize p1 <= len (pool p1) /\ pool p' = pool p1 /\
      trace w' = trace w1 ++ [EvClose InPool c]) \/
     (len (pool p1) < maxSize p1 /\
      pool p' = pool p1 ++ [mkElem (Some c) (clock w1 (ticks w1))] /\
      trace w' = trace w1)).
Proof.
  intros H. apply put_inv in H as (w1 & p1 & HR & Hp1 & [Hfull|Hroom]).
  - destruct Hfull as (Hfull & k & Hk & ->). injection Hk as <-.
    exists w1, p1, p1.
    split; [exact HR|]. split; [exact Hp1|]. split; [exact Hp1|].
    left. splits; auto.
  - destruct Hroom as (Hroom & ->).
    exists w1, p1. eexists.
    split; [exact HR|]. split; [exact Hp1|]. split; [reflexivity|].
    right. splits; auto.
Qed.

(** X3. A socket that [get] returns was the last entry of the cleaned
    pool, was at most as old as the TTL when [get] looked at the clock,
    has left the pool, and was not closed by [get]. *)
Theorem get_returns_fresh_socket (c : conn) (w w' : world) :
  get w = Done (Some c) w' ->
  exists w1 p1 l e p',
    runCleanner w = Done tt w1 /\ ucp w1 = Some p1 /\
    pool p1 = l ++ [e] /\ UDPConn e = Some c /\
    Sub (clock w1 (ticks w1)) (lastUsed e) <= ttl p1 /\
    ucp w' = Some p' /\ pool p' = l /\ trace w' = trace w1.
Proof.
  intros H. apply get_inv in H as (w1 & p1 & HR & Hp1 & [Hempty|Hpop]).
  - destruct Hempty as (_ & Hr & _). discriminate.
  - destruct Hpop as (l & e & Hl & [Hold|Hfresh]).
    + destruct Hold as (_ & Hr & _). discriminate.
    + destruct Hfresh as (Hage & Hr & ->).
      exists w1, p1, l, e. eexists.
      split; [exact HR|]. split; [exact Hp1|]. split; [exact Hl|].
      split; [symmetry; exact Hr|]. split; [exact Hage|].
      split; [reflexivity|]. split; reflexivity.
Qed.

(** *** Release times *)

Lemma sorted_app_last (l : list Z) (x : Z) :
  StronglySorted Z.le l -> Forall (fun s => s <= x) l ->
  StronglySorted Z.le (l ++ [x]).
Proof.
  induction 1 as [|a l Hs IH Ha]; intros Hx; cbn.
  - repeat constructor.
  - inversion Hx; subst. constructor; [auto|].
    apply Forall_app. split; [exact Ha | repeat constructor; assumption].
Qed.

Lemma sorted_last_max (l : list Z) (x : Z) :
  StronglySorted Z.le (l ++ [x]) -> Forall (fun s => s <= x) l.
Proof.
  induction l as [|a l IH]; cbn; intros Hs.
  - constructor.
  - inversion Hs as [|? ? Hs' Ha]; subst. constructor; [|auto].
    apply Forall_app in Ha as [_ Ha]. inversion Ha; subst. assumption.
Qed.

Lemma Subseq_app_l {A} (l r : list A) : Subseq l (l ++ r).
Proof.
  induction l as [|a l IH]; cbn.
  - induction r; constructor; assumption.
  - apply Subseq_keep. exact IH.
Qed.

Lemma stampsOrdered_newestLast w : stampsOrdered w -> newestLast w.
Proof.
  unfold stampsOrdered, newestLast. destruct (ucp w) as [p|]; [|auto].
  intros [Hs _] l e Hl. rewrite Hl in Hs. unfold stamps in Hs.
  rewrite map_app in Hs. cbn in Hs. apply sorted_last_max in Hs.
  rewrite Forall_map in Hs. exact Hs.
Qed.

(** Moving on in time, and dropping entries, keeps the order. *)
Lemma stampsOrdered_later p w p' w' :
  monotone (clock w) ->
  ucp w = Some p -> ucp w' = Some p' ->
  Subseq (stamps (pool p')) (stamps (pool p)) ->
  clock w' = clock w -> (ticks w <= ticks w')%nat ->
  stampsOrdered w -> stampsOrdered w'.
Proof.
  unfold stampsOrdered. intros Hmono Hp Hp' HS HC HT.
  rewrite Hp, Hp'. intros [Hs Hb]. split.
  - eapply Subseq_sorted; eauto.
  - eapply Subseq_Forall; [exact HS|].
    eapply Forall_impl; [|exact Hb]. cbn. intros s Hle.
    rewrite HC. specialize (Hmono _ _ HT). lia.
Qed.

Lemma runOp_stamps o w r w' :
  monotone (clock w) -> stampsOrdered w ->
  runOp o w = Done r w' ->
  stampsOrdered w' /\ clock w' = clock w.
Proof.
  intros Hmono Hord H.
  assert (Hclean : forall w1,
             runCleanner w = Done tt w1 ->
             stampsOrdered w1 /\ clock w1 = clock w).
  { intros w1 HR.
    apply runCleanner_inv in HR
      as (p & p1 & Hp & Hp1 & _ & _ & _ & HS & HC & HT).
    split; [|exact HC].
    eapply stampsOrdered_later; eauto. lia. }
  destruct o as [|c]; cbn [runOp] in H.
  - apply get_inv in H as (w1 & p1 & HR & Hp1 & Hcases).
    destruct (Hclean w1 HR) as (Hord1 & HC1).
    destruct Hcases as [(_ & _ & ->)|(l & e & Hl & Hcases)]; [auto|].
    assert (Hpop : stampsOrdered
                     (mkWorld
                        (Some (mkPool (maxSize p1) l (ttl p1) (lastClean p1)
                                 (cleannerInterval p1)))
                        (clock w1) (S (ticks w1)) (trace w1))).
    { eapply (stampsOrdered_later p1 w1); eauto; try reflexivity.
      - rewrite HC1. exact Hmono.
      - cbn. rewrite Hl. apply Subseq_map, Subseq_app_l.
      - cbn. lia. }
    destruct Hcases as [(_ & _ & k & _ & ->)|(_ & _ & ->)]; auto.
  - apply bind_Done in H as (x & v & Hput & H). ret_inv H.
    apply put_inv in Hput as (w1 & p1 & HR & Hp1 & Hcases).
    destruct (Hclean w1 HR) as (Hord1 & HC1).
    destruct Hcases as [(_ & k & _ & ->)|(_ & ->)]; [auto|].
    split; [|exact HC1].
    unfold stampsOrdered in *. cbn [ucp clock ticks pool].
    rewrite Hp1 in Hord1. destruct Hord1 as [Hs Hb].
    unfold stamps. rewrite map_app. cbn [map lastUsed].
    assert (Hstep : clock w1 (ticks w1) <= clock w1 (S (ticks w1))).
    { rewrite HC1. apply Hmono. lia. }
    split.
    + apply sorted_app_last; assumption.
    + apply Forall_app. split.
      * eapply Forall_impl; [|exact Hb]. cbn. intros s Hle. lia.
      * repeat constructor. exact Hstep.
Qed.

(** X4. With a clock that never runs backwards the pool stays ordered
    by release time: if the release times never decrease along the pool
    and none lies in the future, the same holds after every call of any
    run of [get]s and [put]s; so the last entry, the one [get] takes, is
    always one released latest. *)
Theorem pool_stays_ordered_by_release (ops : list poolOp) (w : world) :
  monotone (clock w) -> stampsOrdered w ->
  Forall (fun w' => stampsOrdered w' /\ newestLast w') (runOps ops w).
Proof.
  revert w. induction ops as [|o ops IH]; intros w Hmono Hord; cbn.
  - constructor.
  - destruct (runOp o w) as [r w'| |] eqn:E; try constructor.
    + destruct (runOp_stamps _ _ _ _ Hmono Hord E) as (Hord' & _).
      split; [exact Hord' | apply stampsOrdered_newestLast; exact Hord'].
    + destruct (runOp_stamps _ _ _ _ Hmono Hord E) as (Hord' & HC).
      apply IH; [rewrite HC; exact Hmono | exact Hord'].
Qed.

Lemma runOp_params o w r w' p :
  ucp w = Some p -> runOp o w = Done r w' -> sameParams p w'.
Proof.
  intros Hp H.
  assert (Hstep : exists n, poolStep w w' n).
  { destruct o as [|c]; cbn [runOp] in H.
    - apply get_Done in H as (q & _ & HS). eauto.
    - apply bind_Done in H as (x & v & Hput & H). ret_inv H.
      apply put_Done in Hput as (q & _ & HS & _). eauto. }
  destruct Hstep as (n & q & p' & evs & Hq & Hp' & Hm & Ht & Hc & _).
  assert (q = p) by congruence. subst q.
  exists p'. splits; auto.
Qed.

(** X5. No run of [get]s and [put]s changes the capacity, the TTL or
    the cleaning interval of the pool. *)
Theorem pool_parameters_never_change
  (ops : list poolOp) (w : world) (p : udpConnPool) :
  ucp w = Some p -> Forall (sameParams p) (runOps ops w).
Proof.
  revert w p. induction ops as [|o ops IH]; intros w p Hp; cbn.
  - constructor.
  - destruct (runOp o w) as [r w'| |] eqn:E; try constructor.
    + eapply runOp_params; eauto.
    + pose proof (runOp_params _ _ _ _ _ Hp E) as (p' & Hp' & Hm & Ht & Hc).
      eapply Forall_impl; [|apply (IH w' p' Hp')].
      intros v (q & Hq & Hm' & Ht' & Hc'). exists q.
      splits; auto; congruence.
Qed.

(** ** Further properties of the exchangers *)

Section ExchangeMore.

Variable getID : list byte -> Z.

(** Replies the loop reads past: on a reused connection those of at
    least 12 bytes that bear another ID; on a new connection none. *)
Lemma readLoop_skip_any c isNew q stale rs w :
  Forall (fun d => 12 <= len d /\ getID d <> getID q) stale ->
  (isNew = true -> stale = []) ->
  readLoop getID c isNew q (map ReadOk stale ++ rs) w =
  readLoop getID c isNew q rs w.
Proof.
  intros Hstale Hnew. destruct isNew.
  - rewrite (Hnew eq_refl). reflexivity.
  - apply readLoop_skip. exact Hstale.
Qed.

(** X6. A reply of fewer than 12 bytes ends the exchange with
    [dns.ErrShortRead]: the exchange closes the connection, which does
    not go back to the pool, and then releases the buffer. *)
Theorem short_reply_closes_connection
  (u : upstreamUDP) (net : udpScript) (q : list byte) (w w1 : world)
  (c : conn) (isNew : bool) (stale : list (list byte)) (short : list byte)
  (rest : list readResult) :
  obtained u net w = Some (c, isNew, w1) ->
  writeErr net = None ->
  reads net = map ReadOk stale ++ ReadOk short :: rest ->
  Forall (fun d => 12 <= len d /\ getID d <> getID q) stale ->
  (isNew = true -> stale = []) ->
  len short < 12 ->
  exchangeUDP getID u net q w =
  Done (None, Some ErrShortRead)
    (logged (logged (logged w1 [EvAcquire (maxUDPSize u)])
               [EvClose InExchange c]) [EvRelease]).
Proof.
  intros Hob Hwr Hrd Hstale Hnew Hlen.
  rewrite (exchangeUDP_reads _ _ _ _ _ _ _ _ Hob Hwr), Hrd.
  rewrite readLoop_skip_any by assumption.
  cbn [readLoop].
  replace (len short <? 12) with true by (symmetry; apply Z.ltb_lt; lia).
  reflexivity.
Qed.

(** X7. A read error that is not a timeout under a finished context (it
    is no [net.Error], or no timeout, or the context is still live) ends
    the exchange with that error: the exchange closes the connection,
    which does not go back to the pool, and then releases the buffer. *)
Theorem read_error_closes_connection
  (u : upstreamUDP) (net : udpScript) (q : list byte) (w w1 : world)
  (c : conn) (isNew : bool) (stale : list (list byte)) (err : ioError)
  (ctxErr : bool) (rest : list readResult) :
  obtained u net w = Some (c, isNew, w1) ->
  writeErr net = None ->
  reads net = map ReadOk stale ++ ReadErr err ctxErr :: rest ->
  Forall (fun d => 12 <= len d /\ getID d <> getID q) stale ->
  (isNew = true -> stale = []) ->
  isNetError err && Timeout err && ctxErr = false ->
  exchangeUDP getID u net q w =
  Done (None, Some (ErrIO err))
    (logged (logged (logged w1 [EvAcquire (maxUDPSize u)])
               [EvClose InExchange c]) [EvRelease]).
Proof.
  intros Hob Hwr Hrd Hstale Hnew Hflags.
  rewrite (exchangeUDP_reads _ _ _ _ _ _ _ _ Hob Hwr), Hrd.
  rewrite readLoop_skip_any by assumption.
  cbn [readLoop]. rewrite Hflags. reflexivity.
Qed.

(** X8. Before any read: when the pool has no connection and dialing
    fails, the exchange returns the error of the dial and has done
    nothing but the [get]; when the write fails, on a new connection or
    a pooled one, the exchange closes the connection and returns the
    error of the write without acquiring a buffer. *)
Theorem failures_before_read
  (u : upstreamUDP) (net : udpScript) (q : list byte) (w w1 : world)
  (got : option conn) :
  get w = Done got w1 ->
  (forall e, got = None -> dialUDP net (addr u) = inr e ->
     exchangeUDP getID u net q w = Done (None, Some (ErrIO e)) w1) /\
  (forall c isNew e,
     obtained u net w = Some (c, isNew, w1) -> writeErr net = Some e ->
     exchangeUDP getID u net q w =
     Done (None, Some (ErrIO e)) (logged w1 [EvClose InExchange c])).
Proof.
  intros Hget. split.
  - intros e -> Hd. unfold exchangeUDP.
    rewrite (bind_eq _ _ _ _ _ Hget). cbn iota beta. rewrite Hd.
    reflexivity.
  - intros c isNew e Hob Hwr.
    apply obtained_get in Hob as (got' & Hget' & Hc).
    unfold exchangeUDP. rewrite (bind_eq _ _ _ _ _ Hget').
    cbn iota beta. rewrite Hc, Hwr. reflexivity.
Qed.

Lemma readLoop_reply c isNew q rs : forall w rRaw err w',
  readLoop getID c isNew q rs w = Done (rRaw, err) w' ->
  (rRaw = None /\ exists e, err = Some e) \/
  (exists b, rRaw = Some b /\ err = None /\ 12 <= len b /\
             In (ReadOk b) rs /\ (isNew = false -> getID b = getID q)).
Proof.
  induction rs as [|[d|e ctxErr] rs IH]; intros w rRaw err w' H;
    cbn [readLoop] in H.
  - discriminate.
  - destruct (len d <? 12) eqn:Hlen.
    + apply bind_Done in H as (x & v & _ & H).
      apply bind_Done in H as (y & v' & _ & H).
      unfold ret in H. injection H as <- <- _. left. eauto.
    + destruct (negb (getID d =? getID q) && negb isNew) eqn:Hid.
      * apply IH in H as [Hl|(b & Hb & He & Hlb & Hin & Hq)];
          [left; exact Hl|].
        right. exists b. splits; auto. right. exact Hin.
      * apply bind_Done in H as (x & v & _ & H).
        apply bind_Done in H as (y & v' & _ & H).
        unfold ret in H. injection H as <- <- _.
        right. exists d. splits; auto.
        -- apply Z.ltb_ge in Hlen. exact Hlen.
        -- left. reflexivity.
        -- intros ->. rewrite andb_true_r in Hid.
           apply negb_false_iff, Z.eqb_eq in Hid. exact Hid.
  - destruct (isNetError e && Timeout e && ctxErr).
    + apply bind_Done in H as (x & v & _ & H).
      apply bind_Done in H as (y & v' & _ & H).
      apply bind_Done in H as (z & v'' & _ & H).
      unfold ret in H. injection H as <- <- _. left. eauto.
    + apply bind_Done in H as (x & v & _ & H).
      apply bind_Done in H as (y & v' & _ & H).
      unfold ret in H. injection H as <- <- _. left. eauto.
Qed.

(** X9. Whatever the UDP exchange returns is either an error and no
    reply, or a reply and no error; a reply returned is one the socket
    delivered, has at least 12 bytes and, when the connection came from
    the pool, bears the ID of the query. *)
Theorem udp_reply_is_checked
  (u : upstreamUDP) (net : udpScript) (q : list byte) (w w' : world)
  (rRaw : option (list byte)) (err : option error) :
  exchangeUDP getID u net q w = Done (rRaw, err) w' ->
  (rRaw = None /\ exists e, err = Some e) \/
  (exists b, rRaw = Some b /\ err = None /\ 12 <= len b /\
             In (ReadOk b) (reads net) /\
             (forall c w1, obtained u net w = Some (c, false, w1) ->
                           getID b = getID q)).
Proof.
  unfold exchangeUDP, obtained. intros H.
  apply bind_Done in H as (got & w1 & Hget & H). rewrite Hget.
  assert (Hbody : forall c isNew,
             match writeErr net with
             | Some e => Close InExchange (Some c) ;; ret (None, Some (ErrIO e))
             | None =>
                 emit (EvAcquire (maxUDPSize u)) ;;
                 readLoop getID c isNew q (reads net)
             end w1 = Done (rRaw, err) w' ->
             (rRaw = None /\ exists e, err = Some e) \/
             (exists b, rRaw = Some b /\ err = None /\ 12 <= len b /\
                        In (ReadOk b) (reads net) /\
                        (isNew = false -> getID b = getID q))).
  { intros c isNew HB. destruct (writeErr net) as [e|].
    - apply bind_Done in HB as (x & v & _ & HB).
      unfold ret in HB. injection HB as <- <- _. left. eauto.
    - apply bind_Done in HB as (x & v & _ & HB).
      apply readLoop_reply in HB. exact HB. }
  destruct got as [c|].
  - apply Hbody in H as [Hl|(b & Hb & He & Hlen & Hin & Hid)];
      [left; exact Hl|].
    right. exists b. splits; auto.
  - destruct (dialUDP net (addr u)) as [c|e].
    + apply Hbody in H as [Hl|(b & Hb & He & Hlen & Hin & Hid)];
        [left; exact Hl|].
      right. exists b. splits; auto. intros c' w2 Hob. discriminate.
    + unfold ret in H. injection H as <- <- _. left. eauto.
Qed.

End ExchangeMore.

Section ExchangeTCPFacts.

Variable getID : list byte -> Z.


(** X11. The TCP exchange returns a reply exactly when the dial, the
    write and the read succeed and the message read bears the ID of the
    query; the reply is then that message, there is no error, and the
    connection is closed. *)
Theorem tcp_reply_iff
  (u : upstreamTCP) (net : tcpScript) (q b : list byte) (w w' : world)
  (err : option error) :
  exchangeTCP getID u net q w = Done (Some b, err) w' <->
  (err = None /\
   exists c, dialTCP net (tcpAddr u) = inl c /\ tcpWriteErr net = None /\
             tcpRead net = inl b /\ getID b = getID q /\
             w' = logged w [EvClose InExchange c]).
Proof.
  unfold exchangeTCP. split.
  - destruct (dialTCP net (tcpAddr u)) as [c|e]; [|discriminate].
    destruct (tcpWriteErr net) as [e|]; [discriminate|].
    destruct (tcpRead net) as [rRaw|e]; [|discriminate].
    cbv zeta. destruct (getID rRaw =? getID q) eqn:Hid; [|discriminate].
    cbn [negb]. intros H.
    unfold bind, ret, Close, emit in H. injection H as <- <- <-.
    apply Z.eqb_eq in Hid. split; [reflexivity|]. exists c. splits; auto.
  - intros (-> & c & Hd & Hw & Hr & Hid & ->).
    rewrite Hd, Hw, Hr. cbv zeta. rewrite Hid, Z.eqb_refl. reflexivity.
Qed.

End ExchangeTCPFacts.

(** *** Round-trip time *)

Lemma Sub_nonneg (t u : Time) : u <= t -> 0 <= Sub t u.
Proof.
  intros H. unfold Sub, maxDuration, minDuration.
  destruct (t - u >? 9223372036854775807); [lia|].
  destruct (t - u <? -9223372036854775808) eqn:E; [|lia].
  apply Z.ltb_lt in E. lia.
Qed.

Lemma put_later c w (u : unit) w' :
  put c w = Done u w' -> clock w' = clock w /\ (ticks w <= ticks w')%nat.
Proof.
  intros H. apply put_inv in H as (w1 & p1 & HR & _ & Hcases).
  apply runCleanner_inv in HR as (_ & _ & _ & _ & _ & _ & _ & _ & HC & HT).
  destruct Hcases as [(_ & k & _ & ->)|(_ & ->)]; cbn; split; auto; lia.
Qed.

Lemma get_later w r w' :
  get w = Done r w' -> clock w' = clock w /\ (ticks w <= ticks w')%nat.
Proof.
  intros H. apply get_inv in H as (w1 & p1 & HR & _ & Hcases).
  apply runCleanner_inv in HR as (_ & _ & _ & _ & _ & _ & _ & _ & HC & HT).
  destruct Hcases as [(_ & _ & ->)|(l & e & _ & Hcases)];
    [split; auto; lia|].
  destruct Hcases as [(_ & _ & k & _ & ->)|(_ & _ & ->)];
    cbn; split; auto; lia.
Qed.

Section RoundTrip.

Variable getID : list byte -> Z.

Lemma readLoop_later c isNew q rs : forall w r w',
  readLoop getID c isNew q rs w = Done r w' ->
  clock w' = clock w /\ (ticks w <= ticks w')%nat.
Proof.
  induction rs as [|[d|e ctxErr] rs IH]; intros w r w' H;
    cbn [readLoop] in H.
  - discriminate.
  - destruct (len d <? 12).
    + apply bind_Done in H as (x & v & Hc & H).
      apply Close_exact in Hc as (k & _ & ->).
      apply bind_Done in H as (y & v' & He & H).
      apply emit_Done in He as ->. ret_inv H. cbn. auto.
    + destruct (negb (getID d =? getID q) && negb isNew); [eauto|].
      apply bind_Done in H as (x & v & He & H).
      apply emit_Done in He as ->.
      apply bind_Done in H as (y & v' & Hp & H).
      apply put_later in Hp as (HC & HT). ret_inv H. cbn in *. auto.
  - destruct (isNetError e && Timeout e && ctxErr).
    + apply bind_Done in H as (x & v & He & H).
      apply emit_Done in He as ->.
      apply bind_Done in H as (y & v' & Hp & H).
      apply put_later in Hp as (HC & HT).
      apply bind_Done in H as (z & v'' & He & H).
      apply emit_Done in He as ->. ret_inv H. cbn in *. auto.
    + apply bind_Done in H as (x & v & Hc & H).
      apply Close_exact in Hc as (k & _ & ->).
      apply bind_Done in H as (y & v' & He & H).
      apply emit_Done in He as ->. ret_inv H. cbn. auto.
Qed.

Lemma exchangeUDP_later u net q w r w' :
  exchangeUDP getID u net q w = Done r w' ->
  clock w' = clock w /\ (ticks w <= ticks w')%nat.
Proof.
  unfold exchangeUDP. intros H.
  apply bind_Done in H as (got & w1 & Hget & H).
  apply get_later in Hget as (HC & HT).
  assert (Hbody : forall c isNew,
             match writeErr net with
             | Some e => Close InExchange (Some c) ;; ret (None, Some (ErrIO e))
             | None =>
                 emit (EvAcquire (maxUDPSize u)) ;;
                 readLoop getID c isNew q (reads net)
             end w1 = Done r w' ->
             clock w' = clock w1 /\ (ticks w1 <= ticks w')%nat).
  { intros c isNew HB. destruct (writeErr net) as [e|].
    - apply bind_Done in HB as (x & v & Hc & HB).
      apply Close_exact in Hc as (k & _ & ->). ret_inv HB. cbn. auto.
    - apply bind_Done in HB as (x & v & He & HB).
      apply emit_Done in He as ->.
      apply readLoop_later in HB. cbn in HB. exact HB. }
  assert (Hdone : clock w' = clock w1 /\ (ticks w1 <= ticks w')%nat).
  { destruct got as [c|].
    - eapply Hbody; eauto.
    - destruct (dialUDP net (addr u)) as [c|e].
      + eapply Hbody; eauto.
      + ret_inv H. auto. }
  destruct Hdone as (HC' & HT'). split; [congruence | lia].
Qed.

Lemma exchangeTCP_later u net q w r w' :
  exchangeTCP getID u net q w = Done r w' ->
  clock w' = clock w /\ ticks w' = ticks w.
Proof.
  unfold exchangeTCP.
  destruct (dialTCP net (tcpAddr u)) as [c|x].
  - destruct (tcpWriteErr net) as [e|].
    + intros H. unfold bind, ret, Close, emit in H.
      injection H as _ <-. auto.
    + destruct (tcpRead net) as [rRaw|e].
      * cbv zeta. destruct (negb (getID rRaw =? getID q));
          intros H; unfold bind, ret, Close, emit in H;
          injection H as _ <-; auto.
      * intros H. unfold bind, ret, Close, emit in H.
        injection H as _ <-. auto.
  - intros H. ret_inv H. auto.
Qed.

(** X12. [Exchange] returns the reply and the error of [exchange],
    begun one reading of the clock later, together with the time between
    the reading before and the reading after; with a clock that never
    runs backwards this round-trip time is never negative, over UDP and
    over TCP, on success and on failure alike. *)
Theorem rtt_is_never_negative
  (uu : upstreamUDP) (unet : udpScript) (ut : upstreamTCP) (tnet : tcpScript)
  (q : list byte) (w : world) :
  monotone (clock w) ->
  (forall b rtt e w',
      ExchangeUDP getID uu unet q w = Done (b, rtt, e) w' ->
      0 <= rtt /\
      exists w1, exchangeUDP getID uu unet q (ticked w) = Done (b, e) w1 /\
                 rtt = Sub (clock w (ticks w1)) (clock w (ticks w))) /\
  (forall b rtt e w',
      ExchangeTCP getID ut tnet q w = Done (b, rtt, e) w' ->
      0 <= rtt /\
      exists w1, exchangeTCP getID ut tnet q (ticked w) = Done (b, e) w1 /\
                 rtt = Sub (clock w (S (ticks w))) (clock w (ticks w))).
Proof.
  intros Hmono. split.
  - intros b rtt e w' H. unfold ExchangeUDP in H.
    apply bind_Done in H as (t & v & Hn & H).
    apply Now_exact in Hn as (-> & ->).
    apply bind_Done in H as ([b' e'] & w1 & Hex & H).
    apply bind_Done in H as (d & v' & Hs & H).
    apply Since_exact in Hs as (-> & ->).
    unfold ret in H. cbn [fst snd] in H. injection H as <- <- <- _.
    pose proof (exchangeUDP_later _ _ _ _ _ _ Hex) as (HC & HT).
    cbn [ticked clock ticks] in HC, HT. rewrite HC.
    split.
    + apply Sub_nonneg. apply Hmono. lia.
    + exists w1. split; [exact Hex | reflexivity].
  - intros b rtt e w' H. unfold ExchangeTCP in H.
    apply bind_Done in H as (t & v & Hn & H).
    apply Now_exact in Hn as (-> & ->).
    apply bind_Done in H as ([b' e'] & w1 & Hex & H).
    apply bind_Done in H as (d & v' & Hs & H).
    apply Since_exact in Hs as (-> & ->).
    unfold ret in H. cbn [fst snd] in H. injection H as <- <- <- _.
    pose proof (exchangeTCP_later _ _ _ _ _ _ Hex) as (HC & HT).
    cbn [ticked clock ticks] in HC, HT. rewrite HC, HT.
    split.
    + apply Sub_nonneg. apply Hmono. lia.
    + exists w1. split; [exact Hex | reflexivity].
Qed.

End RoundTrip.

(** *** Exchanges on a pool of live sockets with room *)

Lemma get_healthy w :
  healthy w -> exists r w', get w = Done r w' /\ healthy w'.
Proof.
  intros (p & Hp & Hlive & Hroom).
  destruct (get_total w p Hp Hlive Hroom) as (r & w' & Hget).
  exists r, w'. split; [exact Hget|].
  destruct (runCleanner_total w p Hp Hlive Hroom)
    as (v1 & q1 & HR' & Hq1 & Hlive1 & Hlen1 & Hm1).
  apply get_inv in Hget as (w1 & p1 & HR & Hp1 & Hcases).
  rewrite HR' in HR. injection HR as <-.
  assert (q1 = p1) by congruence. subst q1.
  assert (Hroom1 : len (pool p1) < maxSize p1)
    by (unfold len in *; lia).
  destruct Hcases as [(_ & _ & ->)|(l & e & Hl & Hcases)].
  - exists p1. auto.
  - rewrite Hl in Hlive1, Hroom1.
    apply Forall_app in Hlive1 as [Hlive1 _].
    assert (Hroom2 : len l < maxSize p1).
    { unfold len in *. rewrite length_app in Hroom1. cbn in Hroom1. lia. }
    destruct Hcases as [(_ & _ & k & _ & ->)|(_ & _ & ->)];
      eexists; (split; [reflexivity|]); cbn; auto.
Qed.

Section HealthyExchange.

Variable getID : list byte -> Z.

Lemma readLoop_healthy c isNew q rs w :
  healthy w -> readLoop getID c isNew q rs w <> Panic.
Proof.
  intros (p & Hp & Hlive & Hroom).
  assert (Hput : exists v,
             put (Some c) (logged w [EvPut c]) = Done tt v).
  { apply (put_total _ p); auto. }
  destruct Hput as (v & Hput).
  induction rs as [|[d|e ctxErr] rs IH]; cbn [readLoop].
  - discriminate.
  - destruct (len d <? 12); [discriminate|].
    destruct (negb (getID d =? getID q) && negb isNew); [exact IH|].
    rewrite (bind_eq _ _ _ _ _ (emit_eq _ _)).
    rewrite (bind_eq _ _ _ _ _ Hput). discriminate.
  - destruct (isNetError e && Timeout e && ctxErr); [|discriminate].
    rewrite (bind_eq _ _ _ _ _ (emit_eq _ _)).
    rewrite (bind_eq _ _ _ _ _ Hput). discriminate.
Qed.

(** X13. On a pool that holds live sockets only and has room left the
    UDP exchange never panics, whatever the network does: neither its
    [get], nor the sweeps, nor its [put] meets a nil socket. *)
Theorem healthy_exchange_never_panics
  (u : upstreamUDP) (net : udpScript) (q : list byte) (w : world) :
  healthy w -> exchangeUDP getID u net q w <> Panic.
Proof.
  intros Hw. destruct (get_healthy w Hw) as (got & w1 & Hget & Hw1).
  unfold exchangeUDP. rewrite (bind_eq _ _ _ _ _ Hget).
  assert (Hbody : forall c isNew,
             match writeErr net with
             | Some e => Close InExchange (Some c) ;; ret (None, Some (ErrIO e))
             | None =>
                 emit (EvAcquire (maxUDPSize u)) ;;
                 readLoop getID c isNew q (reads net)
             end w1 <> Panic).
  { intros c isNew. destruct (writeErr net) as [e|]; [discriminate|].
    rewrite (bind_eq _ _ _ _ _ (emit_eq _ _)).
    apply readLoop_healthy.
    destruct Hw1 as (p1 & Hp1 & Hl & Hr). exists p1. auto. }
  destruct got as [c|]; [apply Hbody|].
  destruct (dialUDP net (addr u)) as [c|e]; [apply Hbody | discriminate].
Qed.

End HealthyExchange.

(** *** The factory, all transports *)

Lemma url_empty (url : string) :
  (len (list_byte_of_string url) =? 0) = true <-> url = ""%string.
Proof.
  destruct url as [|a url]; cbn; split; intros H;
    try reflexivity; try discriminate.
Qed.

(** X14. [newUpstream] fails in three cases and no other: the transport
    is ["udp"] or empty and the address does not resolve; the transport
    is ["doh"] and the URL is empty; the transport is none of ["tcp"],
    ["udp"], [""] and ["doh"].  For ["tcp"] it never fails, whatever
    the address. *)
Theorem newUpstream_fails_iff
  (resolve : string -> UDPAddr + error) (queryTimeout : Duration)
  (address prot url : string) (rootCAs : option nat) :
  (exists err, newUpstream resolve queryTimeout address prot url rootCAs
               = inr err) <->
  (((prot = "udp" \/ prot = "") /\ exists err, resolve address = inr err) \/
   (prot = "doh" /\ url = "") \/
   (prot <> "tcp" /\ prot <> "udp" /\ prot <> "" /\ prot <> "doh"))%string.
Proof.
  unfold newUpstream.
  destruct (String.eqb_spec prot "tcp") as [->|Htcp].
  { split.
    - intros [e He]. discriminate.
    - intros [[[H|H] _]|[[H _]|(H & _)]]; try discriminate.
      contradiction. }
  destruct (String.eqb_spec prot "udp") as [->|Hudp].
  { cbn [orb]. split.
    - intros [e He]. left. split; [auto|].
      destruct (resolve address); [discriminate|eauto].
    - intros [[_ [e He]]|[[H _]|(_ & H & _)]];
        try discriminate; try contradiction.
      rewrite He. eauto. }
  destruct (String.eqb_spec prot "") as [->|Hemp].
  { cbn [orb]. split.
    - intros [e He]. left. split; [auto|].
      destruct (resolve address); [discriminate|eauto].
    - intros [[_ [e He]]|[[H _]|(_ & _ & H & _)]];
        try discriminate; try contradiction.
      rewrite He. eauto. }
  cbn [orb].
  destruct (String.eqb_spec prot "doh") as [->|Hdoh].
  { split.
    - intros [e He]. right. left. split; [reflexivity|].
      apply url_empty.
      destruct (len (list_byte_of_string url) =? 0);
        [reflexivity|discriminate].
    - intros [[[H|H] _]|[[_ H]|(_ & _ & _ & H)]];
        try discriminate; try contradiction.
      apply url_empty in H. rewrite H. eauto. }
  split.
  - intros _. right. right. auto.
  - intros _. eauto.
Qed.

(** X15. What [newUpstream] returns on success is settled by the
    transport: for ["tcp"] a TCP upstream for the address as given; for
    ["udp"] or [""] a UDP upstream; for ["doh"] the DoH client made from
    the URL, the address, the given root CAs with a session cache of
    64, [dns.MaxMsgSize] and the query timeout. *)
Theorem newUpstream_kind
  (resolve : string -> UDPAddr + error) (queryTimeout : Duration)
  (address prot url : string) (rootCAs : option nat) (up : upstream) :
  newUpstream resolve queryTimeout address prot url rootCAs = inl up ->
  ((prot = "tcp" /\ up = UpTCP (mkUpstreamTCP address)) \/
   ((prot = "udp" \/ prot = "") /\
    exists a, resolve address = inl a /\
              up = UpUDP (mkUpstreamUDP a 1480
                            (newUDPConnPool 65535 (Second * 10)
                               (Second * 10)))) \/
   (prot = "doh" /\ url <> "" /\
    up = UpDoH (mkDoHClient url address (mkTLSConfig rootCAs 64)
                  MaxMsgSize queryTimeout)))%string.
Proof.
  unfold newUpstream.
  destruct (String.eqb_spec prot "tcp") as [->|Htcp].
  { intros H. injection H as <-. left. auto. }
  destruct (String.eqb_spec prot "udp") as [->|Hudp].
  { cbn [orb]. destruct (resolve address) as [a|e]; [|discriminate].
    intros H. injection H as <-. right. left. eauto. }
  destruct (String.eqb_spec prot "") as [->|Hemp].
  { cbn [orb]. destruct (resolve address) as [a|e]; [|discriminate].
    intros H. injection H as <-. right. left. eauto. }
  cbn [orb].
  destruct (String.eqb_spec prot "doh") as [->|Hdoh]; [|discriminate].
  destruct (len (list_byte_of_string url) =? 0) eqn:Hurl; [discriminate|].
  intros H. injection H as <-. right. right. splits; auto.
  intros Hu. apply url_empty in Hu. congruence.
Qed.

(** X17. On a pool that holds live sockets only and has room left,
    [get] and [put] complete, and [get] leaves such a pool. *)
Theorem healthy_pool_operations_complete (w : world) :
  healthy w ->
  (exists r w', get w = Done r w' /\ healthy w') /\
  (forall c, exists w', put (Some c) w = Done tt w').
Proof.
  intros Hw. split; [apply get_healthy; exact Hw|].
  intros c. destruct Hw as (p & Hp & Hlive & Hroom).
  apply (put_total w p); assumption.
Qed.

(** ** The further properties at concrete inputs *)

Lemma monotone_steady t0 : monotone (steady t0).
Proof. unfold monotone, steady. intros i j H. lia. Defined.

Lemma healthy_wWarm : healthy wWarm.
Proof.
  exists (poolOf wWarm). split; [reflexivity|]. split.
  - repeat constructor. discriminate.
  - vm_compute. reflexivity.
Defined.

Lemma scheduled_sweep_keeps_fresh_witness :
  Subseq [newEntry] [oldEntry; newEntry].
Proof.
  apply (scheduled_sweep_keeps_fresh (Second * 10) [oldEntry; newEntry]
           wBoot [newEntry]
           (mkWorld (ucp wBoot) (clock wBoot) 2 [EvClose InPool 1%nat])).
  reflexivity.
Defined.

Lemma put_closes_or_stores_witness :
  exists w1 p1 p',
    runCleanner wBoot = Done tt w1 /\ ucp w1 = Some p1 /\
    ucp wWarm = Some p' /\
    ((maxSize p1 <= len (pool p1) /\ pool p' = pool p1 /\
      trace wWarm = trace w1 ++ [EvClose InPool 9%nat]) \/
     (len (pool p1) < maxSize p1 /\
      pool p' = pool p1 ++ [mkElem (Some 9%nat) (clock w1 (ticks w1))] /\
      trace wWarm = trace w1)).
Proof.
  apply (put_closes_or_stores 9%nat wBoot wWarm tt). reflexivity.
Defined.

Lemma get_returns_fresh_socket_witness :
  exists w1 p1 l e p',
    runCleanner wWarm = Done tt w1 /\ ucp w1 = Some p1 /\
    pool p1 = l ++ [e] /\ UDPConn e = Some 9%nat /\
    Sub (clock w1 (ticks w1)) (lastUsed e) <= ttl p1 /\
    ucp (after get wWarm) = Some p' /\ pool p' = l /\
    trace (after get wWarm) = trace w1.
Proof.
  apply (get_returns_fresh_socket 9%nat wWarm (after get wWarm)).
  reflexivity.
Defined.

Lemma pool_stays_ordered_by_release_witness :
  Forall (fun w' => stampsOrdered w' /\ newestLast w')
    (runOps [OpPut (Some 1%nat); OpPut (Some 2%nat); OpGet;
             OpPut (Some 3%nat)] pool4).
Proof.
  apply (pool_stays_ordered_by_release _ pool4).
  - apply monotone_steady.
  - split; constructor.
Defined.

Lemma pool_parameters_never_change_witness :
  Forall (sameParams (poolOf pool4))
    (runOps [OpPut (Some 1%nat); OpGet; OpGet] pool4).
Proof.
  apply (pool_parameters_never_change _ pool4 (poolOf pool4)). reflexivity.
Defined.

Lemma short_reply_closes_connection_witness :
  exchangeUDP GetMsgID u0 netShort q1 wBoot =
  Done (None, Some ErrShortRead)
    (logged (logged (logged (after get wBoot) [EvAcquire 1480])
               [EvClose InExchange 7%nat]) [EvRelease]).
Proof.
  apply (short_reply_closes_connection GetMsgID u0 netShort q1 wBoot
           (after get wBoot) 7%nat true [] [x00; x01] []).
  - reflexivity.
  - reflexivity.
  - reflexivity.
  - constructor.
  - reflexivity.
  - vm_compute. reflexivity.
Defined.

Lemma read_error_closes_connection_witness :
  exchangeUDP GetMsgID u0 netRefused q1 wBoot =
  Done (None, Some (ErrIO refusedErr))
    (logged (logged (logged (after get wBoot) [EvAcquire 1480])
               [EvClose InExchange 7%nat]) [EvRelease]).
Proof.
  apply (read_error_closes_connection GetMsgID u0 netRefused q1 wBoot
           (after get wBoot) 7%nat true [] refusedErr false []).
  - reflexivity.
  - reflexivity.
  - reflexivity.
  - constructor.
  - reflexivity.
  - reflexivity.
Defined.

Lemma failures_before_read_witness :
  exchangeUDP GetMsgID u0 netDown q1 wBoot =
    Done (None, Some (ErrIO refusedErr)) (after get wBoot) /\
  exchangeUDP GetMsgID u0 netNoWrite q1 wBoot =
    Done (None, Some (ErrIO refusedErr))
      (logged (after get wBoot) [EvClose InExchange 7%nat]).
Proof.
  split.
  - apply (proj1 (failures_before_read GetMsgID u0 netDown q1 wBoot
                    (after get wBoot) None eq_refl) refusedErr);
      reflexivity.
  - apply (proj2 (failures_before_read GetMsgID u0 netNoWrite q1 wBoot
                    (after get wBoot) None eq_refl) 7%nat true refusedErr);
      reflexivity.
Defined.

Lemma udp_reply_is_checked_witness :
  (Some r1 = None /\ exists e, @None error = Some e) \/
  (exists b, Some r1 = Some b /\ @None error = None /\ 12 <= len b /\
             In (ReadOk b) (reads netStale) /\
             (forall c w1, obtained u0 netStale wWarm = Some (c, false, w1) ->
                           GetMsgID b = GetMsgID q1)).
Proof.
  apply (udp_reply_is_checked GetMsgID u0 netStale q1 wWarm
           (after (exchangeUDP GetMsgID u0 netStale q1) wWarm)
           (Some r1) None).
  reflexivity.
Defined.


Lemma rtt_is_never_negative_witness : 0 <= 5.
Proof.
  apply (proj1 (rtt_is_never_negative GetMsgID u0 netMismatch
                  (mkUpstreamTCP "127.0.0.1:53") tcpMismatch q1 wBoot
                  (monotone_steady t2020))
           (Some r2) 5 None
           (after (ExchangeUDP GetMsgID u0 netMismatch q1) wBoot)).
  reflexivity.
Defined.

Lemma healthy_exchange_never_panics_witness :
  exchangeUDP GetMsgID u0 netStale q1 wWarm <> Panic.
Proof.
  apply (healthy_exchange_never_panics GetMsgID u0 netStale q1 wWarm).
  apply healthy_wWarm.
Defined.

Lemma newUpstream_kind_witness :
  (("tcp" = "tcp" /\
    UpTCP (mkUpstreamTCP "1.1.1.1:53") = UpTCP (mkUpstreamTCP "1.1.1.1:53")) \/
   (("tcp" = "udp" \/ "tcp" = "") /\
    exists a, resolveLocal "1.1.1.1:53" = inl a /\
              UpTCP (mkUpstreamTCP "1.1.1.1:53") =
              UpUDP (mkUpstreamUDP a 1480
                       (newUDPConnPool 65535 (Second * 10) (Second * 10)))) \/
   ("tcp" = "doh" /\ "" <> "" /\
    UpTCP (mkUpstreamTCP "1.1.1.1:53") =
    UpDoH (mkDoHClient "" "1.1.1.1:53" (mkTLSConfig None 64)
             MaxMsgSize (5 * Second))))%string.
Proof.
  apply (newUpstream_kind resolveLocal (5 * Second) "1.1.1.1:53" "tcp" ""
           None (UpTCP (mkUpstreamTCP "1.1.1.1:53"))).
  reflexivity.
Defined.

Lemma sweepFull_keeps_first_half_witness :
  nth_error
    [mkElem None (t2020 + 2); mkElem None (t2020 + 4);
     mkElem (Some 3%nat) (t2020 + 6); mkElem (Some 4%nat) (t2020 + 8)] 1
  = Some (mkElem None (t2020 + 4)).
Proof.
  apply (sweepFull_keeps_first_half (Second * 10) 2
           [mkElem (Some 1%nat) (t2020 + 2); mkElem (Some 2%nat) (t2020 + 4);
            mkElem (Some 3%nat) (t2020 + 6); mkElem (Some 4%nat) (t2020 + 8)]
           0 (after (puts [1; 2; 3; 4]%nat) pool4)
           [mkElem None (t2020 + 2); mkElem None (t2020 + 4);
            mkElem (Some 3%nat) (t2020 + 6); mkElem (Some 4%nat) (t2020 + 8)]
           (logged (mkWorld (ucp (after (puts [1; 2; 3; 4]%nat) pool4))
                      (steady t2020) 13 [])
              [EvClose InPool 1%nat; EvClose InPool 2%nat])
           eq_refl 1%nat (mkElem (Some 2%nat) (t2020 + 4)) eq_refl).
  vm_compute. reflexivity.
Defined.

Lemma healthy_pool_operations_complete_witness :
  (exists r w', get wWarm = Done r w' /\ healthy w') /\
  (forall c, exists w', put (Some c) wWarm = Done tt w').
Proof.
  apply (healthy_pool_operations_complete wWarm healthy_wWarm).
Defined.
